(** * GeoPuzzle Walks: a shallow embedding of [src/App.jsx]

    The development follows the component function [App] of the source:
    pure helpers first ([haversineMeters], [isUuid], [computeGrid],
    [sliceImage]), then the component state and its event handlers as
    state transformers, then the properties.

    Number model.  JavaScript numbers that hold coordinates, distances and
    radii are modelled by the real numbers [R]: every arithmetic operation
    is the exact one, rounding of IEEE doubles is not modelled.  Numbers
    that hold counts, pixel sizes and orders are modelled by [Z]; on the
    integers that the program really handles (array lengths, image sizes)
    [Math.floor], [Math.ceil] and [Math.sqrt] agree with the integer
    operations used below. *)

From Stdlib Require Import Reals Lra ZArith Lia List Ascii String Permutation.
From Stdlib Require Import DecimalString DecimalZ DecimalPos DecimalFacts.
From stdpp Require Import base decidable option list gmap strings.

Import ListNotations.

(* ===================================================================== *)
(** * Part I: definitions                                                 *)
(* ===================================================================== *)

(** ** Geo Math *)

Module Geo.
Local Open Scope R_scope.

(** A plain [{lat, lng}] object. *)
Record Coordinate : Type := mkCoordinate { lat : R; lng : R }.

(** [haversineMeters] reads only the [lat] and [lng] properties of its
    arguments; it is called with a position and with a piece.  The class
    plays the part of that structural interface. *)
Class LatLng (A : Type) : Type := { lat_of : A -> R; lng_of : A -> R }.

#[global] Instance Coordinate_LatLng : LatLng Coordinate :=
  {| lat_of := lat; lng_of := lng |}.

(** [const R = 6371000] *)
Definition R_earth : R := 6371000.

(** [const toRad = (d) => (d * Math.PI) / 180] *)
Definition toRad (d : R) : R := (d * PI) / 180.

(** The quantity [h] of [haversineMeters], the haversine of the central
    angle. *)
Definition hav `{LatLng A, LatLng B} (a : A) (b : B) : R :=
  let dLat := toRad (lat_of b - lat_of a) in
  let dLng := toRad (lng_of b - lng_of a) in
  let lat1 := toRad (lat_of a) in
  let lat2 := toRad (lat_of b) in
  let sinDLat := sin (dLat / 2) in
  let sinDLng := sin (dLng / 2) in
  sinDLat * sinDLat + cos lat1 * cos lat2 * sinDLng * sinDLng.

(** [function haversineMeters(a, b)]:
    [return 2 * R * Math.asin(Math.sqrt(h))]. *)
Definition haversineMeters `{LatLng A, LatLng B} (a : A) (b : B) : R :=
  2 * R_earth * asin (sqrt (hav a b)).

(** The comparison [x <= y] of the source, as a decidable proposition. *)
#[global] Instance Rle_decision (x y : R) : Decision (x <= y) := Rle_dec x y.
End Geo.

(** ** Tiling Engine *)

Module Tiling.
Local Open Scope Z_scope.

(** [Math.ceil(a / b)] for an integer [a] and a positive integer [b]. *)
Definition ceil_div (a b : Z) : Z := - ((- a) / b).

(** The object [{ cols, rows }]. *)
Record Grid : Type := mkGrid { cols : Z; rows : Z }.

(** [const computeGrid = (count) => ...].  [Z.sqrt_up] is the least
    integer whose square reaches its argument, that is
    [Math.ceil(Math.sqrt(safeCount))]. *)
Definition computeGrid (count : Z) : Grid :=
  let safeCount := Z.max 1 count in
  let cols := Z.sqrt_up safeCount in
  let rows := ceil_div safeCount cols in
  {| cols := cols; rows := rows |}.

(** The grid policy in the words of the specification:
    cols = ceil(sqrt(max(1, pieceCount))), rows = ceil(pieceCount / cols). *)
Definition computeGrid_spec (pieceCount : Z) : Grid :=
  let cols := Z.sqrt_up (Z.max 1 pieceCount) in
  {| cols := cols; rows := ceil_div pieceCount cols |}.

(** What [canvas.toDataURL] encodes after
    [ctx.drawImage(img, sx, sy, sw, sh, 0, 0, tileW, tileH)]: the
    rectangle of the source image that was copied. *)
Record Crop : Type := mkCrop
  { src : string; sx : Z; sy : Z; sw : Z; sh : Z }.

(** An element [{ order, fragment }] of [piecesOut]. *)
Record Tile : Type := mkTile { tile_order : Z; fragment : Crop }.

(** The inner loop [for (let c = 0; c < cols; c += 1)], with [n]
    iterations left; [order] and [piecesOut] are the mutable variables
    of the source. *)
Fixpoint colLoop (n : nat) (dataUrl : string) (r c tileW tileH : Z)
    (order : Z) (piecesOut : list Tile) : Z * list Tile :=
  match n with
  | O => (order, piecesOut)
  | S n' =>
      let fragment := mkCrop dataUrl (c * tileW) (r * tileH) tileW tileH in
      colLoop n' dataUrl r (c + 1) tileW tileH (order + 1)
              (piecesOut ++ [mkTile order fragment])
  end.

(** The outer loop [for (let r = 0; r < rows; r += 1)]. *)
Fixpoint rowLoop (n : nat) (dataUrl : string) (cols r tileW tileH : Z)
    (order : Z) (piecesOut : list Tile) : Z * list Tile :=
  match n with
  | O => (order, piecesOut)
  | S n' =>
      let '(order', out') :=
        colLoop (Z.to_nat cols) dataUrl r 0 tileW tileH order piecesOut in
      rowLoop n' dataUrl cols (r + 1) tileW tileH order' out'
  end.

(** The body of [img.onload] for a decoded image of [width] by [height]
    pixels.  [Math.floor(img.width / cols)] is [width / cols] on
    positive integers. *)
Definition sliceDecoded (dataUrl : string) (width height cols rows : Z)
  : list Tile :=
  let tileW := width / cols in
  let tileH := height / rows in
  snd (rowLoop (Z.to_nat rows) dataUrl cols 0 tileW tileH 1 []).

Section WithDecoder.
(** The image source: the browser decodes a data URL to an image with
    pixel dimensions, or fails ([img.onerror]). *)
Variable decode : string -> option (Z * Z).

(** [const sliceImage = (dataUrl, cols, rows) => new Promise(...)]:
    the promise resolves with [piecesOut] or rejects with the message
    of [img.onerror]. *)
Definition sliceImage (dataUrl : string) (cols rows : Z)
  : string + list Tile :=
  match decode dataUrl with
  | Some (width, height) => inr (sliceDecoded dataUrl width height cols rows)
  | None => inl "Failed to load image."%string
  end.
End WithDecoder.
End Tiling.

(** ** Identifiers *)

Module Uuid.
Local Open Scope char_scope.

(** The character classes of the regular expression of [isUuid]; the
    flag [i] makes the letters match in both cases. *)
Inductive CharClass : Type :=
| Hex        (* [0-9a-f] *)
| Dash       (* -        *)
| Version    (* [1-5]    *)
| Variant.   (* [89ab]   *)

Definition between (lo hi c : ascii) : bool :=
  (nat_of_ascii lo <=? nat_of_ascii c)%nat && (nat_of_ascii c <=? nat_of_ascii hi)%nat.

Definition matchClass (k : CharClass) (c : ascii) : bool :=
  match k with
  | Hex => between "0" "9" c || between "a" "f" c || between "A" "F" c
  | Dash => Ascii.eqb c "-"
  | Version => between "1" "5" c
  | Variant => between "8" "9" c || between "a" "b" c || between "A" "B" c
  end.

(** [[0-9a-f]{8}-[0-9a-f]{4}-[1-5][0-9a-f]{3}-[89ab][0-9a-f]{3}-[0-9a-f]{12}] *)
Definition pattern : list CharClass :=
  repeat Hex 8 ++ [Dash] ++ repeat Hex 4 ++ [Dash] ++
  [Version] ++ repeat Hex 3 ++ [Dash] ++
  [Variant] ++ repeat Hex 3 ++ [Dash] ++ repeat Hex 12.

(** Anchored match ([^ ... $]): every class consumes one character and
    the string ends with the pattern. *)
Fixpoint matches (pat : list CharClass) (s : string) : bool :=
  match pat, s with
  | [], EmptyString => true
  | k :: pat', String c s' => matchClass k c && matches pat' s'
  | _, _ => false
  end.

(** [function isUuid(value)]; an absent value is the empty string
    ([value || '']). *)
Definition isUuid (value : string) : bool := matches pattern value.
End Uuid.

(** ** JavaScript [Set] of strings

    A [Set] keeps its elements in insertion order, without duplicates;
    spreading it ([[...set]]) lists them in that order. *)

Module JsSet.
Definition t : Type := list string.

Definition add (s : t) (x : string) : t :=
  if decide (x ∈ s) then s else s ++ [x].

(** [new Set(iterable)] *)
Definition newSet (xs : list string) : t := foldl add [] xs.

(** [set.has(x)] *)
Definition has (s : t) (x : string) : bool := bool_decide (x ∈ s).

(** [[...set]] *)
Definition spread (s : t) : list string := s.
End JsSet.

(** Template literals print a number in decimal. *)
Definition numToString (z : Z) : string :=
  DecimalString.NilZero.string_of_int (Z.to_int z).

(** ** Marker shapes *)

Module Icons.
Local Open Scope Z_scope.

(** [ToInt32]: the value of [x | 0] and of the operands of [<<]. *)
Definition toInt32 (x : Z) : Z := (x + 2 ^ 31) mod 2 ^ 32 - 2 ^ 31.

(** [value.charCodeAt(i)] for a string of one-byte characters. *)
Definition charCode (c : ascii) : Z := Z.of_nat (nat_of_ascii c).

(** One turn of the loop of [hashString]:
    [hash = (hash << 5) - hash + value.charCodeAt(i); hash |= 0]. *)
Definition hashStep (hash : Z) (c : ascii) : Z :=
  toInt32 (toInt32 (Z.shiftl (toInt32 hash) 5) - hash + charCode c).

Fixpoint hashLoop (hash : Z) (value : string) : Z :=
  match value with
  | EmptyString => hash
  | String c rest => hashLoop (hashStep hash c) rest
  end.

(** [const hashString = (value) => ...; return Math.abs(hash)] *)
Definition hashString (value : string) : Z := Z.abs (hashLoop 0 value).

(** [const SHAPE_CLASSES] *)
Definition SHAPE_CLASSES : list string :=
  ["shape-a"; "shape-b"; "shape-c"; "shape-d"]%string.

(** [hashString(piece.id) % SHAPE_CLASSES.length] *)
Definition shapeIndex (pieceId : string) : Z :=
  hashString pieceId mod Z.of_nat (length SHAPE_CLASSES).

(** [SHAPE_CLASSES[shapeIndex]] *)
Definition shapeClass (pieceId : string) : option string :=
  SHAPE_CLASSES !! Z.to_nat (shapeIndex pieceId).
End Icons.

(** ** Data model *)

Module Piece.
(** [{ id, lat, lng, order, imageFragmentUrl }]; an empty
    [imageFragmentUrl] is [None]. *)
Record t : Type := mk
  { id : string; lat : R; lng : R; order : Z;
    imageFragmentUrl : option Tiling.Crop }.

#[global] Instance LatLng_t : Geo.LatLng t :=
  {| Geo.lat_of := lat; Geo.lng_of := lng |}.

Definition setImageFragmentUrl (u : option Tiling.Crop) (p : t) : t :=
  mk (id p) (lat p) (lng p) (order p) u.
End Piece.

Module Route.
(** [{ id, name, center, radiusM }] *)
Record t : Type := mk
  { id : string; name : string; center : Geo.Coordinate; radiusM : R }.

Definition setId (i : string) (r : t) : t :=
  mk i (name r) (center r) (radiusM r).
End Route.

(** [const DEFAULT_ROUTE] *)
Definition DEFAULT_ROUTE : Route.t :=
  Route.mk "route-1" "Select a Route"
           (Geo.mkCoordinate 37.7749%R (-122.4194)%R) 800%R.

(** [const INITIAL_PIECES = []] *)
Definition INITIAL_PIECES : list Piece.t := [].

(** A row of the remote table [progress], keyed by
    [(route_id, device_id)] (unique index of the schema). *)
Record ProgressRow : Type := mkProgressRow
  { collected_piece_ids : list string;
    completed_at : option string;
    updated_at : string }.

(** Rows of the remote tables [routes] and [pieces] as [loadRoute] reads
    them. *)
Record RouteRow : Type := mkRouteRow
  { row_id : string; row_name : string;
    center_lat : R; center_lng : R; radius_m : R;
    puzzle_image_url : option string;
    grid_cols : option Z; grid_rows : option Z }.

Record PieceRow : Type := mkPieceRow
  { prow_id : string; prow_lat : R; prow_lng : R;
    piece_order : Z; image_fragment_url : option Tiling.Crop }.

(** The payload of [importRoute] after [JSON.parse]. *)
Record Payload : Type := mkPayload
  { pl_route : option Route.t; pl_pieces : option (list Piece.t);
    pl_puzzleImageUrl : option string;
    pl_gridCols : option Z; pl_gridRows : option Z }.

(** What the success callback given to [watchPosition] closes over: the
    constants [remaining] and [collectionRadius] of the render in which
    [startWalk] ran. *)
Record WatchClosure : Type := mkWatchClosure
  { w_remaining : list Piece.t; w_collectionRadius : R }.

(** Calls that leave the component, in the order they are made. *)
Inductive Effect : Type :=
| Alert (message : string)
| WatchPosition
| ClearWatch
| SliceImage (dataUrl : string) (cols rows : Z)
| UpsertProgress (route_id device_id : string) (row : ProgressRow)
| SelectProgress (route_id device_id : string).

(** The state variables of [App] that the engine uses ([useState] and
    [useRef]), followed by what lives outside the component: the remote
    table [progress], the entry [LAST_ROUTE_KEY] of [localStorage] and
    the trace of outgoing calls. *)
Record State : Type := mkState
  { route : Route.t;
    pieces : list Piece.t;
    collectedIds : list string;
    userPos : option Geo.Coordinate;
    collectionRadius : R;
    watchIdRef : option WatchClosure;
    selectedRouteId : string;
    walkError : string;
    adminError : string;
    puzzleImageUrl : string;
    gridCols : Z;
    gridRows : Z;
    deviceId : string;
    walkBusy : bool;
    lastSliceRef : string;
    progressTable : gmap (string * string) ProgressRow;
    lastRouteStored : option string;
    trace : list Effect }.

(** ** The component [App] *)

(** The answer of the remote store to a request: [{ data, error }]. *)
Inductive Reply (A : Type) : Type :=
| Failed (message : string)
| Fetched (data : A).
Arguments Failed {A} message.
Arguments Fetched {A} data.

Module App.
Import Geo Tiling Uuid.

(** *** State setters ([setX] of [useState], assignment to [ref.current]) *)

Definition setRoute (v : Route.t) (st : State) : State :=
  mkState v (pieces st) (collectedIds st) (userPos st)
    (collectionRadius st) (watchIdRef st) (selectedRouteId st)
    (walkError st) (adminError st) (puzzleImageUrl st) (gridCols st)
    (gridRows st) (deviceId st) (walkBusy st) (lastSliceRef st)
    (progressTable st) (lastRouteStored st) (trace st).

Definition setPieces (v : list Piece.t) (st : State) : State :=
  mkState (route st) v (collectedIds st) (userPos st) (collectionRadius st)
    (watchIdRef st) (selectedRouteId st) (walkError st) (adminError st)
    (puzzleImageUrl st) (gridCols st) (gridRows st) (deviceId st)
    (walkBusy st) (lastSliceRef st) (progressTable st) (lastRouteStored st)
    (trace st).

Definition setCollectedIds (v : list string) (st : State) : State :=
  mkState (route st) (pieces st) v (userPos st) (collectionRadius st)
    (watchIdRef st) (selectedRouteId st) (walkError st) (adminError st)
    (puzzleImageUrl st) (gridCols st) (gridRows st) (deviceId st)
    (walkBusy st) (lastSliceRef st) (progressTable st) (lastRouteStored st)
    (trace st).

Definition setUserPos (v : option Geo.Coordinate) (st : State) : State :=
  mkState (route st) (pieces st) (collectedIds st) v (collectionRadius st)
    (watchIdRef st) (selectedRouteId st) (walkError st) (adminError st)
    (puzzleImageUrl st) (gridCols st) (gridRows st) (deviceId st)
    (walkBusy st) (lastSliceRef st) (progressTable st) (lastRouteStored st)
    (trace st).

Definition setCollectionRadius (v : R) (st : State) : State :=
  mkState (route st) (pieces st) (collectedIds st) (userPos st) v
    (watchIdRef st) (selectedRouteId st) (walkError st) (adminError st)
    (puzzleImageUrl st) (gridCols st) (gridRows st) (deviceId st)
    (walkBusy st) (lastSliceRef st) (progressTable st) (lastRouteStored st)
    (trace st).

Definition setWatchIdRef (v : option WatchClosure) (st : State) : State :=
  mkState (route st) (pieces st) (collectedIds st) (userPos st)
    (collectionRadius st) v (selectedRouteId st) (walkError st)
    (adminError st) (puzzleImageUrl st) (gridCols st) (gridRows st)
    (deviceId st) (walkBusy st) (lastSliceRef st) (progressTable st)
    (lastRouteStored st) (trace st).

Definition setSelectedRouteId (v : string) (st : State) : State :=
  mkState (route st) (pieces st) (collectedIds st) (userPos st)
    (collectionRadius st) (watchIdRef st) v (walkError st) (adminError st)
    (puzzleImageUrl st) (gridCols st) (gridRows st) (deviceId st)
    (walkBusy st) (lastSliceRef st) (progressTable st) (lastRouteStored st)
    (trace st).

Definition setWalkError (v : string) (st : State) : State :=
  mkState (route st) (pieces st) (collectedIds st) (userPos st)
    (collectionRadius st) (watchIdRef st) (selectedRouteId st) v
    (adminError st) (puzzleImageUrl st) (gridCols st) (gridRows st)
    (deviceId st) (walkBusy st) (lastSliceRef st) (progressTable st)
    (lastRouteStored st) (trace st).

Definition setAdminError (v : string) (st : State) : State :=
  mkState (route st) (pieces st) (collectedIds st) (userPos st)
    (collectionRadius st) (watchIdRef st) (selectedRouteId st)
    (walkError st) v (puzzleImageUrl st) (gridCols st) (gridRows st)
    (deviceId st) (walkBusy st) (lastSliceRef st) (progressTable st)
    (lastRouteStored st) (trace st).

Definition setPuzzleImageUrl (v : string) (st : State) : State :=
  mkState (route st) (pieces st) (collectedIds st) (userPos st)
    (collectionRadius st) (watchIdRef st) (selectedRouteId st)
    (walkError st) (adminError st) v (gridCols st) (gridRows st)
    (deviceId st) (walkBusy st) (lastSliceRef st) (progressTable st)
    (lastRouteStored st) (trace st).

Definition setGridCols (v : Z) (st : State) : State :=
  mkState (route st) (pieces st) (collectedIds st) (userPos st)
    (collectionRadius st) (watchIdRef st) (selectedRouteId st)
    (walkError st) (adminError st) (puzzleImageUrl st) v (gridRows st)
    (deviceId st) (walkBusy st) (lastSliceRef st) (progressTable st)
    (lastRouteStored st) (trace st).

Definition setGridRows (v : Z) (st : State) : State :=
  mkState (route st) (pieces st) (collectedIds st) (userPos st)
    (collectionRadius st) (watchIdRef st) (selectedRouteId st)
    (walkError st) (adminError st) (puzzleImageUrl st) (gridCols st) v
    (deviceId st) (walkBusy st) (lastSliceRef st) (progressTable st)
    (lastRouteStored st) (trace st).

Definition setDeviceId (v : string) (st : State) : State :=
  mkState (route st) (pieces st) (collectedIds st) (userPos st)
    (collectionRadius st) (watchIdRef st) (selectedRouteId st)
    (walkError st) (adminError st) (puzzleImageUrl st) (gridCols st)
    (gridRows st) v (walkBusy st) (lastSliceRef st) (progressTable st)
    (lastRouteStored st) (trace st).

Definition setWalkBusy (v : bool) (st : State) : State :=
  mkState (route st) (pieces st) (collectedIds st) (userPos st)
    (collectionRadius st) (watchIdRef st) (selectedRouteId st)
    (walkError st) (adminError st) (puzzleImageUrl st) (gridCols st)
    (gridRows st) (deviceId st) v (lastSliceRef st) (progressTable st)
    (lastRouteStored st) (trace st).

Definition setLastSliceRef (v : string) (st : State) : State :=
  mkState (route st) (pieces st) (collectedIds st) (userPos st)
    (collectionRadius st) (watchIdRef st) (selectedRouteId st)
    (walkError st) (adminError st) (puzzleImageUrl st) (gridCols st)
    (gridRows st) (deviceId st) (walkBusy st) v (progressTable st)
    (lastRouteStored st) (trace st).

Definition setProgressTable (v : gmap (string * string) ProgressRow) (st : State) : State :=
  mkState (route st) (pieces st) (collectedIds st) (userPos st)
    (collectionRadius st) (watchIdRef st) (selectedRouteId st)
    (walkError st) (adminError st) (puzzleImageUrl st) (gridCols st)
    (gridRows st) (deviceId st) (walkBusy st) (lastSliceRef st) v
    (lastRouteStored st) (trace st).

Definition setLastRouteStored (v : option string) (st : State) : State :=
  mkState (route st) (pieces st) (collectedIds st) (userPos st)
    (collectionRadius st) (watchIdRef st) (selectedRouteId st)
    (walkError st) (adminError st) (puzzleImageUrl st) (gridCols st)
    (gridRows st) (deviceId st) (walkBusy st) (lastSliceRef st)
    (progressTable st) v (trace st).

(** Record an outgoing call. *)
Definition emit (e : Effect) (st : State) : State :=
  mkState (route st) (pieces st) (collectedIds st) (userPos st)
    (collectionRadius st) (watchIdRef st) (selectedRouteId st)
    (walkError st) (adminError st) (puzzleImageUrl st) (gridCols st)
    (gridRows st) (deviceId st) (walkBusy st) (lastSliceRef st)
    (progressTable st) (lastRouteStored st) (trace st ++ [e]).

(** Functional updates [setX((prev) => ...)]. *)
Definition updPieces (f : list Piece.t -> list Piece.t) (st : State) : State :=
  setPieces (f (pieces st)) st.
Definition updCollectedIds (f : list string -> list string) (st : State) : State :=
  setCollectedIds (f (collectedIds st)) st.

(** The state of the first render. *)
Definition initialState : State :=
  mkState DEFAULT_ROUTE INITIAL_PIECES [] None 30%R None "" "" "" "" 3 3 ""
          false "" ∅ None [].

(** *** Values derived at each render *)

(** [new Set(collectedIds)] *)
Definition collectedSet (st : State) : JsSet.t :=
  JsSet.newSet (collectedIds st).

(** [[...pieces].sort((a, b) => a.order - b.order)]: the sort of
    JavaScript is stable. *)
Fixpoint insertByOrder (p : Piece.t) (l : list Piece.t) : list Piece.t :=
  match l with
  | [] => [p]
  | q :: l' =>
      if (Piece.order p <=? Piece.order q)%Z then p :: l
      else q :: insertByOrder p l'
  end.

Definition sortByOrder (l : list Piece.t) : list Piece.t :=
  foldr insertByOrder [] l.

Definition orderedPieces (st : State) : list Piece.t :=
  sortByOrder (pieces st).

(** [orderedPieces.filter((p) => !collectedSet.has(p.id))] *)
Definition remaining (st : State) : list Piece.t :=
  filter (λ p, ¬ JsSet.has (collectedSet st) (Piece.id p)) (orderedPieces st).

(** [pieces.length > 0 && collectedIds.length === pieces.length] *)
Definition allCollected (st : State) : bool :=
  bool_decide (0 < length (pieces st))%nat
  && bool_decide (length (collectedIds st) = length (pieces st)).

(** *** Walk mode *)

(** [const startWalk = () => ...]; [geolocation] tells whether
    [navigator.geolocation] exists.  The callback registered with
    [watchPosition] is created in this render and keeps this render's
    [remaining] and [collectionRadius]. *)
Definition startWalk (geolocation : bool) (st : State) : State :=
  if decide (selectedRouteId st = "") then
    emit (Alert "Select a route first.") st
  else if negb geolocation then
    emit (Alert "Geolocation is not supported on this device.") st
  else
    match watchIdRef st with
    | Some _ => st
    | None =>
        emit WatchPosition
          (setWatchIdRef
             (Some (mkWatchClosure (remaining st) (collectionRadius st))) st)
    end.

(** The ids that one sample collects:
    [remaining.filter((piece) => haversineMeters(nextPos, piece) <=
    collectionRadius).map((piece) => piece.id)]. *)
Definition newlyCollected (remaining : list Piece.t) (collectionRadius : R)
    (nextPos : Coordinate) : list string :=
  Piece.id <$>
    filter (λ piece, (haversineMeters nextPos piece <= collectionRadius)%R)
           remaining.

(** The success callback [(pos) => ...] of [watchPosition]. *)
Definition watchSuccess (w : WatchClosure) (nextPos : Coordinate)
    (st : State) : State :=
  let st1 := setUserPos (Some nextPos) st in
  let newly := newlyCollected (w_remaining w) (w_collectionRadius w) nextPos in
  if decide (length newly = 0%nat) then st1
  else
    updCollectedIds
      (λ prev, JsSet.spread (JsSet.newSet (prev ++ newly))) st1.

(** The error callback [(err) => ...] of [watchPosition]. *)
Definition watchError (st : State) : State :=
  emit (Alert "Unable to read location. Make sure location access is enabled.")
       st.

(** What the position source hands to the registered callbacks. *)
Inductive GeoEvent : Type :=
| Sample (pos : Coordinate)
| ReadFailure.

(** The position source calls the callbacks of the current watch, if
    there is one. *)
Definition deliver (ev : GeoEvent) (st : State) : State :=
  match watchIdRef st with
  | None => st
  | Some w =>
      match ev with
      | Sample pos => watchSuccess w pos st
      | ReadFailure => watchError st
      end
  end.

(** A run of position events, in arrival order. *)
Definition deliverAll (evs : list GeoEvent) (st : State) : State :=
  foldl (λ s ev, deliver ev s) st evs.

(** [const stopWalk = () => ...] *)
Definition stopWalk (st : State) : State :=
  match watchIdRef st with
  | Some _ => setWatchIdRef None (emit ClearWatch st)
  | None => st
  end.

(** *** Admin mode: pieces *)

(** [const addPiece = (point) => ...]; [uuid] is the value of
    [crypto.randomUUID()]. *)
Definition addPiece (uuid : string) (point : Coordinate) (st : State) : State :=
  updPieces
    (λ prev,
       prev ++ [Piece.mk uuid (lat point) (lng point)
                         (Z.of_nat (length prev) + 1) None])
    st.

(** [const removePiece = (pieceId) => ...] *)
Definition removePiece (pieceId : string) (st : State) : State :=
  updCollectedIds (filter (λ id, id ≠ pieceId))
    (updPieces (filter (λ piece, Piece.id piece ≠ pieceId)) st).

(** *** Admin mode: puzzle image *)

(** [const applyImageFragments = (fragments) => ...];
    [fragments[idx]?.fragment ?? ''] is the fragment at [idx] or empty. *)
Definition applyImageFragments (fragments : list Tile) (st : State) : State :=
  updPieces
    (λ prev,
       match prev with
       | [] => prev
       | _ =>
           imap (λ idx piece,
                   Piece.setImageFragmentUrl (fragment <$> fragments !! idx)
                                             piece)
                prev
       end)
    st.

(** The template literal
    [`${puzzleImageUrl.length}:${pieces.length}:${cols}x${rows}`]. *)
Definition sliceKey (puzzleImageUrl : string) (pieceCount : Z) (g : Grid)
  : string :=
  numToString (Z.of_nat (String.length puzzleImageUrl)) +:+ ":" +:+
  numToString pieceCount +:+ ":" +:+
  numToString (cols g) +:+ "x" +:+ numToString (rows g).

Section WithDecoder.
Variable decode : string -> option (Z * Z).

(** [sliceImage(url, cols, rows).then(applyImageFragments)
     .catch((err) => alert(err.message))] *)
Definition sliceAndApply (dataUrl : string) (g : Grid) (st : State) : State :=
  let st1 := emit (SliceImage dataUrl (cols g) (rows g)) st in
  match sliceImage decode dataUrl (cols g) (rows g) with
  | inr fragments => applyImageFragments fragments st1
  | inl message => emit (Alert message) st1
  end.

(** The effect on [[puzzleImageUrl, pieces.length]] that re-slices
    when the slice key changed. *)
Definition sliceEffect (st : State) : State :=
  if decide (puzzleImageUrl st = "" ∨ pieces st = []) then st
  else
    let g := computeGrid (Z.of_nat (length (pieces st))) in
    let key := sliceKey (puzzleImageUrl st) (Z.of_nat (length (pieces st))) g in
    if decide (lastSliceRef st = key) then st
    else
      let st1 := setLastSliceRef key st in
      let st2 := setGridCols (cols g) st1 in
      let st3 := setGridRows (rows g) st2 in
      sliceAndApply (puzzleImageUrl st) g st3.

(** [const resliceFromPieceCount = async () => ...] *)
Definition resliceFromPieceCount (st : State) : State :=
  if decide (puzzleImageUrl st = "" ∨ pieces st = []) then st
  else
    let g := computeGrid (Z.of_nat (length (pieces st))) in
    let st1 := setGridCols (cols g) st in
    let st2 := setGridRows (rows g) st1 in
    sliceAndApply (puzzleImageUrl st) g st2.

(** [const handlePuzzleUpload = async (event) => ...]; [file] is
    [None] when no file was chosen, otherwise the outcome of
    [loadImage(file)]. *)
Definition handlePuzzleUpload (file : option (Reply string)) (st : State)
  : State :=
  match file with
  | None => st
  | Some (Failed message) => emit (Alert message) st
  | Some (Fetched dataUrl) =>
      let st1 := setPuzzleImageUrl dataUrl st in
      let g := computeGrid (Z.of_nat (length (pieces st))) in
      let st2 := setGridCols (cols g) st1 in
      let st3 := setGridRows (rows g) st2 in
      sliceAndApply dataUrl g st3
  end.
End WithDecoder.

(** [const importRoute = () => ...]; [parsed] is [None] when
    [JSON.parse] throws. *)
Definition importRoute (parsed : option Payload) (st : State) : State :=
  match parsed with
  | None => emit (Alert "Invalid JSON") st
  | Some payload =>
      match pl_route payload, pl_pieces payload with
      | Some r, Some ps =>
          let st1 := setRoute r st in
          let st2 := setPieces ps st1 in
          let st3 := setPuzzleImageUrl (default "" (pl_puzzleImageUrl payload)) st2 in
          let st4 := setGridCols (default 3%Z (pl_gridCols payload)) st3 in
          let st5 := setGridRows (default 3%Z (pl_gridRows payload)) st4 in
          setCollectedIds [] st5
      | _, _ => st
      end
  end.

(** [const newRoute = () => ...]; [uuid] is the value of
    [crypto.randomUUID()]. *)
Definition newRoute (uuid : string) (st : State) : State :=
  let st1 :=
    setRoute (Route.mk uuid "New Route" (Route.center (route st))
                       (Route.radiusM (route st))) st in
  let st2 := setPieces [] st1 in
  let st3 := setCollectedIds [] st2 in
  let st4 := setPuzzleImageUrl "" st3 in
  setSelectedRouteId "" st4.

(** *** Progress synchronisation *)

(** The guard of [saveProgress]:
    [!deviceId || !isUuid(route.id) || route.id !== selectedRouteId]. *)
Definition saveBlocked (st : State) : bool :=
  bool_decide (deviceId st = "")
  || negb (isUuid (Route.id (route st)))
  || bool_decide (Route.id (route st) ≠ selectedRouteId st).

(** [completedAt] of [saveProgress]. *)
Definition completedAtOf (pieceCount : nat) (validIds : list string)
    (now : string) : option string :=
  if bool_decide (0 < pieceCount)%nat
     && bool_decide (length validIds = pieceCount)
  then Some now else None.

(** [const saveProgress = async (nextCollectedIds) => ...]; [now] is
    [new Date().toISOString()], [error] the error of the upsert, if
    any.  A failed upsert leaves the table as it was. *)
Definition saveProgress (now : string) (error : option string)
    (nextCollectedIds : list string) (st : State) : State :=
  if saveBlocked st then st
  else
    let validIds := filter (λ id, isUuid id) nextCollectedIds in
    let completedAt := completedAtOf (length (pieces st)) validIds now in
    let row := mkProgressRow validIds completedAt now in
    let key := (Route.id (route st), deviceId st) in
    let st1 := emit (UpsertProgress key.1 key.2 row) st in
    match error with
    | None => setProgressTable (<[key := row]> (progressTable st1)) st1
    | Some message => setWalkError message st1
    end.

(** [const resetProgress = async () => ...] *)
Definition resetProgress (now : string) (error : option string) (st : State)
  : State :=
  saveProgress now error [] (setCollectedIds [] st).

(** The effect on [[collectedIds, deviceId, route.id, selectedRouteId,
    pieces.length]] that persists the collected ids. *)
Definition saveEffect (now : string) (error : option string) (st : State)
  : State :=
  if saveBlocked st then st
  else saveProgress now error (collectedIds st) st.

(** [const loadProgress = async (routeId, pieceIds) => ...]; [error] is
    the error of the select, if any; without error the data is the row
    of the table, if there is one ([maybeSingle]). *)
Definition loadProgress (error : option string) (routeId : string)
    (pieceIds : list string) (st : State) : State :=
  if bool_decide (routeId = "") || bool_decide (deviceId st = "")
     || negb (isUuid routeId)
  then st
  else
    let st1 := emit (SelectProgress routeId (deviceId st)) st in
    match error with
    | Some message => setAdminError message (setWalkError message st1)
    | None =>
        let data := progressTable st1 !! (routeId, deviceId st) in
        let validSet := JsSet.newSet pieceIds in
        let nextCollected :=
          filter (λ id, JsSet.has validSet id)
                 (default [] (collected_piece_ids <$> data)) in
        setCollectedIds nextCollected st1
    end.

(** A nullable string used as a condition. *)
Definition truthy (u : option string) : bool :=
  match u with
  | Some s => bool_decide (s ≠ "")
  | None => false
  end.

Section WithDecoder.
Variable decode : string -> option (Z * Z).

(** [const loadRoute = async (routeId) => ...]; the arguments are the
    answers of the remote store to the three selects. *)
Definition loadRoute (routeReply : Reply RouteRow)
    (pieceReply : Reply (option (list PieceRow)))
    (progressError : option string) (routeId : string) (st : State)
  : State :=
  if decide (routeId = "") then st
  else
    let st0 := setWalkError "" (setWalkBusy true st) in
    let fail message s :=
      setWalkBusy false (setAdminError message (setWalkError message s)) in
    match routeReply with
    | Failed message => fail message st0
    | Fetched routeData =>
        match pieceReply with
        | Failed message => fail message st0
        | Fetched pieceData =>
            let rows := default [] pieceData in
            let hasFragments :=
              existsb (λ piece, bool_decide (is_Some (image_fragment_url piece)))
                      rows in
            let normalizedPieces :=
              (λ piece, Piece.mk (prow_id piece) (prow_lat piece)
                                 (prow_lng piece) (piece_order piece)
                                 (image_fragment_url piece)) <$> rows in
            let st1 :=
              setRoute (Route.mk (row_id routeData) (row_name routeData)
                          (mkCoordinate (center_lat routeData)
                                        (center_lng routeData))
                          (radius_m routeData)) st0 in
            let st2 :=
              setPuzzleImageUrl (default "" (puzzle_image_url routeData)) st1 in
            let st3 := setGridCols (default 3%Z (grid_cols routeData)) st2 in
            let st4 := setGridRows (default 3%Z (grid_rows routeData)) st3 in
            let st5 := setPieces normalizedPieces st4 in
            let st6 :=
              if negb hasFragments && truthy (puzzle_image_url routeData) then
                let url := default "" (puzzle_image_url routeData) in
                let g :=
                  computeGrid
                    (default 1%Z ((λ l, Z.of_nat (length l)) <$> pieceData)) in
                let s := emit (SliceImage url (cols g) (Tiling.rows g)) st5 in
                match sliceImage decode url (cols g) (Tiling.rows g) with
                | inr fragments => applyImageFragments fragments s
                | inl message =>
                    setAdminError message (setWalkError message s)
                end
              else st5 in
            let st7 :=
              loadProgress progressError routeId
                           (Piece.id <$> normalizedPieces) st6 in
            let st8 := setSelectedRouteId routeId st7 in
            let st9 := setLastRouteStored (Some routeId) st8 in
            setWalkBusy false st9
        end
    end.
End WithDecoder.

(** A row that [saveRoute] inserts into [pieces]; the store assigns
    the id. *)
Record PieceInsert : Type := mkPieceInsert
  { ins_route_id : string; ins_lat : R; ins_lng : R;
    ins_piece_order : Z; ins_image_fragment_url : option Tiling.Crop }.

(** The rows of [pieces] that [saveRoute] inserts:
    [pieces.map((piece, index) => ({ route_id: routeId, lat: piece.lat,
    lng: piece.lng, piece_order: index + 1,
    image_fragment_url: piece.imageFragmentUrl ?? null }))]. *)
Definition saveRoutePieceRows (routeId : string) (pieces : list Piece.t)
  : list PieceInsert :=
  imap (λ index piece,
          mkPieceInsert routeId (Piece.lat piece) (Piece.lng piece)
                        (Z.of_nat index + 1) (Piece.imageFragmentUrl piece))
       pieces.


(** The effect that initialises the device id; [existing] is
    [localStorage.getItem(DEVICE_ID_KEY)] and [uuid] the value of
    [crypto.randomUUID()].  It returns the entry of [localStorage]
    afterwards with the new state.  An empty stored string is falsy. *)
Definition deviceIdEffect (existing : option string) (uuid : string)
    (st : State) : option string * State :=
  if truthy existing then (existing, setDeviceId (default "" existing) st)
  else (Some uuid, setDeviceId uuid st).
End App.

(* ===================================================================== *)
(** * Part II: properties                                                 *)
(* ===================================================================== *)


Module GeoTheory.
Import Geo.
Local Open Scope R_scope.

Section Haversine.
Context `{LatLng A, LatLng B}.

Lemma toRad_0 : toRad 0 = 0.
Proof. unfold toRad. lra. Qed.

Lemma toRad_opp (d : R) : toRad (- d) = - toRad d.
Proof. unfold toRad. lra. Qed.

Lemma toRad_minus (x y : R) : toRad (x - y) = toRad x - toRad y.
Proof. unfold toRad. lra. Qed.

(** The half-angle sine of a difference changes sign when the
    difference is reversed, so its square does not change. *)
Lemma sin_half_swap (x y : R) :
  sin (toRad (x - y) / 2) * sin (toRad (x - y) / 2) =
  sin (toRad (y - x) / 2) * sin (toRad (y - x) / 2).
Proof.
  replace (toRad (x - y) / 2) with (- (toRad (y - x) / 2))
    by (unfold toRad; lra).
  rewrite sin_neg. ring.
Qed.

Lemma hav_sym (a : A) (b : B) : hav a b = hav b a.
Proof.
  unfold hav.
  rewrite (sin_half_swap (lat_of b) (lat_of a)).
  rewrite (Rmult_assoc _ (sin (toRad (lng_of b - lng_of a) / 2))).
  rewrite (sin_half_swap (lng_of b) (lng_of a)).
  ring.
Qed.

(** [sin² (x/2) = (1 - cos x) / 2]. *)
Lemma sin_half_sqr (x : R) : sin (x / 2) * sin (x / 2) = (1 - cos x) / 2.
Proof.
  replace (cos x) with (cos (2 * (x / 2))) by (f_equal; lra).
  rewrite cos_2a_sin. lra.
Qed.

(** In exact arithmetic [h] stays in the domain of [Math.sqrt] and
    [Math.asin]: no input produces [NaN]. *)
Lemma hav_range (a : A) (b : B) : 0 <= hav a b <= 1.
Proof.
  unfold hav.
  set (p1 := toRad (lat_of a)). set (p2 := toRad (lat_of b)).
  rewrite Rmult_assoc.
  rewrite !sin_half_sqr.
  rewrite toRad_minus. fold p1 p2.
  set (s := (1 - cos (toRad (lng_of b - lng_of a))) / 2).
  assert (Hs : 0 <= s <= 1).
  { unfold s. pose proof (COS_bound (toRad (lng_of b - lng_of a))). lra. }
  pose proof (cos_minus p2 p1) as Hm.
  pose proof (cos_plus p2 p1) as Hp.
  pose proof (COS_bound (p2 - p1)) as Bm.
  pose proof (COS_bound (p2 + p1)) as Bp.
  assert (Hc : cos p1 * cos p2 = (cos (p2 - p1) + cos (p2 + p1)) / 2) by lra.
  rewrite Hc.
  set (u := cos (p2 - p1)) in *. set (v := cos (p2 + p1)) in *.
  split; nra.
Qed.
End Haversine.

Lemma asin_nonneg (x : R) : 0 <= x -> 0 <= asin x.
Proof.
  intros Hx.
  destruct (Rle_dec x 1) as [Hle | Hgt].
  - destruct (Rle_dec 0 (asin x)) as [Hpos | Hneg]; [exact Hpos | exfalso].
    apply Rnot_le_lt in Hneg.
    pose proof (asin_bound x) as [Hlo _].
    assert (Hs : sin (asin x) < 0).
    { apply sin_lt_0_var; [ | exact Hneg ].
      pose proof PI_RGT_0. lra. }
    rewrite sin_asin in Hs by lra. lra.
  - unfold asin.
    destruct (Rle_dec x (-1)); [lra | ].
    destruct (Rle_dec 1 x); [ | lra ].
    pose proof PI_RGT_0. lra.
Qed.

Lemma hav_self `{LatLng A} (a : A) : hav a a = 0.
Proof.
  unfold hav. rewrite !Rminus_diag, toRad_0.
  replace (0 / 2) with 0 by lra. rewrite sin_0. ring.
Qed.

Lemma haversine_self `{LatLng A} (a : A) : haversineMeters a a = 0.
Proof.
  unfold haversineMeters. rewrite hav_self, sqrt_0, asin_0. ring.
Qed.

Lemma haversine_nonneg `{LatLng A, LatLng B} (a : A) (b : B) :
  0 <= haversineMeters a b.
Proof.
  unfold haversineMeters, R_earth.
  pose proof (asin_nonneg (sqrt (hav a b)) (sqrt_pos _)). nra.
Qed.

(** C9: the distance between two coordinates is the haversine
    great-circle distance on a sphere of radius 6,371,000 m; the
    distance of a coordinate to itself is 0, the distance is symmetric
    and it is never negative. *)
Theorem haversineMeters_metric (a b : Coordinate) :
  R_earth = 6371000
  /\ haversineMeters a b = 2 * R_earth * asin (sqrt (hav a b))
  /\ 0 <= hav a b <= 1
  /\ haversineMeters a a = 0
  /\ haversineMeters a b = haversineMeters b a
  /\ 0 <= haversineMeters a b.
Proof.
  split; [reflexivity | ].
  split; [reflexivity | ].
  split; [apply hav_range | ].
  split; [apply haversine_self | ].
  split; [ | apply haversine_nonneg ].
  unfold haversineMeters. now rewrite hav_sym.
Qed.
End GeoTheory.

Module TilingTheory.
Import Tiling.
Local Open Scope Z_scope.

(** *** Grid policy *)

(** [ceil_div a b] is the least integer whose product with [b]
    reaches [a]. *)
Lemma ceil_div_bounds (a b : Z) :
  0 < b -> (ceil_div a b - 1) * b < a <= ceil_div a b * b.
Proof.
  intros Hb. unfold ceil_div.
  pose proof (Z.div_mod (- a) b ltac:(lia)) as Hdm.
  pose proof (Z.mod_pos_bound (- a) b Hb) as Hmod.
  nia.
Qed.

Lemma sqrt_up_bounds (s : Z) :
  0 < s -> (Z.sqrt_up s - 1) * (Z.sqrt_up s - 1) < s <= Z.sqrt_up s * Z.sqrt_up s.
Proof.
  intros Hs. pose proof (Z.sqrt_up_spec s Hs) as Hspec.
  unfold Z.pred in Hspec. lia.
Qed.

Lemma computeGrid_cols_pos (n : Z) : 0 < cols (computeGrid n).
Proof. unfold computeGrid; simpl. apply Z.sqrt_up_pos. lia. Qed.

Lemma computeGrid_covers (n : Z) :
  n <= cols (computeGrid n) * rows (computeGrid n).
Proof.
  pose proof (computeGrid_cols_pos n) as Hc.
  unfold computeGrid in *; simpl in *.
  pose proof (ceil_div_bounds (Z.max 1 n) _ Hc). lia.
Qed.

Lemma computeGrid_agrees_from_1 (n : Z) :
  1 <= n -> computeGrid n = computeGrid_spec n.
Proof.
  intros Hn. unfold computeGrid, computeGrid_spec.
  now rewrite Z.max_r by lia.
Qed.

(** C3, as the specification words it, fails for an empty piece list:
    the source divides [safeCount], not [count], by [cols], so the
    grid of 0 pieces has one row where [ceil(0 / 1)] is 0. *)
Lemma computeGrid_zero_differs :
  computeGrid 0 = mkGrid 1 1
  /\ computeGrid_spec 0 = mkGrid 1 0
  /\ computeGrid 0 <> computeGrid_spec 0.
Proof. repeat split; try reflexivity. discriminate. Qed.

(** C3, amended: with [s = max(1, pieceCount)], [cols] is the ceiling
    of the square root of [s] and [rows] is the ceiling of [s / cols]
    (each is the least integer that reaches its bound); the grid holds
    at least [pieceCount] cells; for a positive piece count this is
    the grid of the specification; 9 pieces give 3 by 3 and 10 pieces
    give 4 by 3. *)
Theorem computeGrid_correct (pieceCount : Z) :
  let s := Z.max 1 pieceCount in
  let g := computeGrid pieceCount in
  ((cols g - 1) * (cols g - 1) < s <= cols g * cols g /\ 0 < cols g)
  /\ (rows g - 1) * cols g < s <= rows g * cols g
  /\ pieceCount <= cols g * rows g
  /\ (1 <= pieceCount -> g = computeGrid_spec pieceCount)
  /\ computeGrid 9 = mkGrid 3 3
  /\ computeGrid 10 = mkGrid 4 3.
Proof.
  intros s g.
  pose proof (computeGrid_cols_pos pieceCount) as Hc. fold g in Hc.
  split; [ split; [ apply sqrt_up_bounds; subst s; lia | exact Hc ] | ].
  split; [ apply (ceil_div_bounds s (cols g) Hc) | ].
  split; [ apply computeGrid_covers | ].
  split; [ apply computeGrid_agrees_from_1 | ].
  split; reflexivity.
Qed.

Lemma computeGrid_correct_witness :
  let g := computeGrid 6 in
  (1 <= 6) /\ g = mkGrid 3 2 /\ g = computeGrid_spec 6.
Proof.
  split; [lia | ]. split; [reflexivity | ].
  apply (computeGrid_correct 6). lia.
Defined.

(** *** Slicing *)

(** The tile drawn at row [r], column [c], as the [order]-th tile. *)
Definition tileAt (dataUrl : string) (tileW tileH r c order : Z) : Tile :=
  mkTile order (mkCrop dataUrl (c * tileW) (r * tileH) tileW tileH).

Local Ltac tile_eq tac := unfold tileAt; f_equal; try tac; f_equal; tac.

Lemma colLoop_closed (n : nat) (dataUrl : string) (r c tileW tileH o : Z)
    (out : list Tile) :
  colLoop n dataUrl r c tileW tileH o out =
  (o + Z.of_nat n,
   out ++ ((λ i : nat, tileAt dataUrl tileW tileH r (c + Z.of_nat i)
                             (o + Z.of_nat i)) <$> seq 0 n)).
Proof.
  revert c o out. induction n as [ | n IH]; intros c o out.
  - cbn [colLoop seq fmap list_fmap]. f_equal; [lia | now rewrite app_nil_r].
  - cbn [colLoop]. rewrite IH. f_equal; [lia | ].
    rewrite <- app_assoc. f_equal.
    cbn [seq fmap list_fmap app]. unfold tileAt at 3.
    rewrite !Z.add_0_r. f_equal.
    rewrite <- fmap_S_seq, <- list_fmap_compose.
    apply list_fmap_ext. intros _ i _. cbn.
    tile_eq lia.
Qed.

Section RowLoop.
Variables (dataUrl : string) (cols tileW tileH : Z).
Let C : nat := Z.to_nat cols.

Lemma rowLoop_spec (n : nat) (r o : Z) (out : list Tile) :
  let res := rowLoop n dataUrl cols r tileW tileH o out in
  res.1 = o + Z.of_nat (n * C)
  /\ length res.2 = (length out + n * C)%nat
  /\ (forall k, (k < length out)%nat -> res.2 !! k = out !! k)
  /\ (forall j i, (j < n)%nat -> (i < C)%nat ->
        res.2 !! (length out + (j * C + i))%nat =
        Some (tileAt dataUrl tileW tileH (r + Z.of_nat j) (Z.of_nat i)
                     (o + Z.of_nat (j * C + i)))).
Proof.
  revert r o out. induction n as [ | n IH]; intros r o out; cbn zeta.
  - cbn [rowLoop fst snd]. repeat split; intros; try reflexivity; lia.
  - cbn [rowLoop]. rewrite colLoop_closed. fold C.
    set (row0 := (λ i : nat, tileAt dataUrl tileW tileH r (0 + Z.of_nat i)
                                   (o + Z.of_nat i)) <$> seq 0 C).
    specialize (IH (r + 1) (o + Z.of_nat C) (out ++ row0)).
    cbn zeta in IH. destruct IH as (IHo & IHlen & IHold & IHnew).
    assert (Hrow0 : length row0 = C)
      by (unfold row0; now rewrite length_fmap, length_seq).
    rewrite length_app, Hrow0 in IHlen, IHnew, IHold.
    repeat split.
    + rewrite IHo. lia.
    + rewrite IHlen. lia.
    + intros k Hk. rewrite IHold by lia. now apply lookup_app_l.
    + intros j i Hj Hi. destruct j as [ | j].
      * rewrite IHold by lia.
        rewrite lookup_app_r by lia.
        replace (length out + (0 * C + i) - length out)%nat with i by lia.
        unfold row0. rewrite list_lookup_fmap, lookup_seq_lt by lia.
        cbn. f_equal. tile_eq lia.
      * replace (length out + (S j * C + i))%nat
          with (length out + C + (j * C + i))%nat by lia.
        rewrite IHnew by lia. f_equal. tile_eq lia.
Qed.
End RowLoop.

Lemma sliceDecoded_length (dataUrl : string) (width height cols rows : Z) :
  length (sliceDecoded dataUrl width height cols rows) =
  (Z.to_nat rows * Z.to_nat cols)%nat.
Proof.
  unfold sliceDecoded.
  pose proof (rowLoop_spec dataUrl cols (width / cols) (height / rows)
                (Z.to_nat rows) 0 1 []) as (_ & Hlen & _).
  exact Hlen.
Qed.

Lemma sliceDecoded_lookup (dataUrl : string) (width height cols rows r c : Z) :
  0 <= r < rows -> 0 <= c < cols ->
  sliceDecoded dataUrl width height cols rows !! Z.to_nat (r * cols + c) =
  Some (tileAt dataUrl (width / cols) (height / rows) r c (r * cols + c + 1)).
Proof.
  intros Hr Hc. unfold sliceDecoded.
  pose proof (rowLoop_spec dataUrl cols (width / cols) (height / rows)
                (Z.to_nat rows) 0 1 []) as (_ & _ & _ & Hnew).
  specialize (Hnew (Z.to_nat r) (Z.to_nat c) ltac:(lia) ltac:(lia)).
  cbn [length] in Hnew.
  replace (Z.to_nat (r * cols + c))
    with (0 + (Z.to_nat r * Z.to_nat cols + Z.to_nat c))%nat by nia.
  rewrite Hnew. f_equal.
  rewrite Nat2Z.inj_add, Nat2Z.inj_mul, !Z2Nat.id by lia.
  tile_eq lia.
Qed.

Lemma sliceDecoded_orders (dataUrl : string) (width height cols rows : Z) :
  0 < cols -> 0 < rows ->
  tile_order <$> sliceDecoded dataUrl width height cols rows =
  seqZ 1 (cols * rows).
Proof.
  intros Hc Hr. apply list_eq. intros k.
  rewrite list_lookup_fmap.
  destruct (decide (k < Z.to_nat (cols * rows))%nat) as [Hk | Hk].
  - rewrite lookup_seqZ_lt by lia.
    pose proof (Z.div_mod (Z.of_nat k) cols ltac:(lia)) as Hdm.
    pose proof (Z.mod_pos_bound (Z.of_nat k) cols Hc) as Hmod.
    assert (Hq : 0 <= Z.of_nat k / cols < rows).
    { split; [apply Z.div_pos; lia | apply Z.div_lt_upper_bound; lia]. }
    replace k with (Z.to_nat (Z.of_nat k / cols * cols + Z.of_nat k mod cols))
      at 1 by lia.
    rewrite sliceDecoded_lookup by lia. cbn. f_equal. lia.
  - rewrite lookup_seqZ_ge by lia.
    rewrite lookup_ge_None_2; [reflexivity | ].
    rewrite sliceDecoded_length. nia.
Qed.

(** C4: for an image that decodes and positive [cols] and [rows],
    [sliceImage] resolves with exactly [cols * rows] fragments; the
    fragment at row-major index [r * cols + c] is the cell of row [r]
    and column [c], of size [floor(width / cols)] by
    [floor(height / rows)]; the orders are 1 .. [cols * rows]; a 300
    by 300 image cut 3 by 3 gives nine 100 by 100 fragments, the
    top-left one first. *)
Theorem sliceImage_row_major (decode : string -> option (Z * Z))
    (dataUrl : string) (width height cols rows : Z) :
  decode dataUrl = Some (width, height) -> 0 < cols -> 0 < rows ->
  exists fragments,
    sliceImage decode dataUrl cols rows = inr fragments
    /\ length fragments = Z.to_nat (cols * rows)
    /\ (forall r c, 0 <= r < rows -> 0 <= c < cols ->
          fragments !! Z.to_nat (r * cols + c) =
          Some (mkTile (r * cols + c + 1)
                       (mkCrop dataUrl (c * (width / cols)) (r * (height / rows))
                               (width / cols) (height / rows))))
    /\ tile_order <$> fragments = seqZ 1 (cols * rows)
    /\ sliceDecoded dataUrl 300 300 3 3 =
       [ mkTile 1 (mkCrop dataUrl 0 0 100 100);
         mkTile 2 (mkCrop dataUrl 100 0 100 100);
         mkTile 3 (mkCrop dataUrl 200 0 100 100);
         mkTile 4 (mkCrop dataUrl 0 100 100 100);
         mkTile 5 (mkCrop dataUrl 100 100 100 100);
         mkTile 6 (mkCrop dataUrl 200 100 100 100);
         mkTile 7 (mkCrop dataUrl 0 200 100 100);
         mkTile 8 (mkCrop dataUrl 100 200 100 100);
         mkTile 9 (mkCrop dataUrl 200 200 100 100) ].
Proof.
  intros Hdec Hc Hr.
  exists (sliceDecoded dataUrl width height cols rows).
  split; [unfold sliceImage; now rewrite Hdec | ].
  split; [rewrite sliceDecoded_length; nia | ].
  split; [intros r c Hrr Hcc; now apply sliceDecoded_lookup | ].
  split; [now apply sliceDecoded_orders | reflexivity].
Qed.

Lemma sliceImage_row_major_witness :
  exists fragments,
    sliceImage (λ _, Some (640, 480)) "data:image/png;base64,AAAA" 4 3
    = inr fragments
    /\ length fragments = 12%nat
    /\ fragments !! 5%nat =
       Some (mkTile 6 (mkCrop "data:image/png;base64,AAAA" 160 160 160 160)).
Proof.
  destruct (sliceImage_row_major (λ _, Some (640, 480))
              "data:image/png;base64,AAAA" 640 480 4 3
              eq_refl ltac:(lia) ltac:(lia))
    as (fragments & Heq & Hlen & Hat & _).
  exists fragments. split; [exact Heq | ]. split; [exact Hlen | ].
  apply (Hat 1 1); lia.
Defined.
End TilingTheory.

Module JsSetTheory.
Import JsSet.

Lemma elem_of_add (s : t) (x y : string) : y ∈ add s x <-> y ∈ s \/ y = x.
Proof.
  unfold add. destruct (decide (x ∈ s)) as [Hin | Hout].
  - split; [now left | intros [Hy | ->]; assumption].
  - rewrite elem_of_app, list_elem_of_singleton. reflexivity.
Qed.

Lemma elem_of_foldl_add (xs : list string) (s : t) (y : string) :
  y ∈ foldl add s xs <-> y ∈ s \/ y ∈ xs.
Proof.
  revert s. induction xs as [ | x xs IH]; intros s; cbn [foldl].
  - rewrite elem_of_nil. tauto.
  - rewrite IH, elem_of_add, elem_of_cons. tauto.
Qed.

(** [new Set(xs)] has exactly the elements of [xs]. *)
Lemma elem_of_newSet (xs : list string) (y : string) : y ∈ newSet xs <-> y ∈ xs.
Proof.
  unfold newSet. rewrite elem_of_foldl_add, elem_of_nil. tauto.
Qed.

Lemma NoDup_add (s : t) (x : string) : NoDup s -> NoDup (add s x).
Proof.
  intros Hs. unfold add. destruct (decide (x ∈ s)) as [Hin | Hout]; [exact Hs | ].
  apply NoDup_app. split; [exact Hs | ]. split; [ | apply NoDup_singleton ].
  intros y Hy Hx. apply list_elem_of_singleton in Hx. now subst.
Qed.

Lemma NoDup_foldl_add (xs : list string) (s : t) :
  NoDup s -> NoDup (foldl add s xs).
Proof.
  revert s. induction xs as [ | x xs IH]; intros s Hs; cbn [foldl]; [exact Hs | ].
  apply IH. now apply NoDup_add.
Qed.

(** A [Set] never holds an element twice. *)
Lemma NoDup_newSet (xs : list string) : NoDup (newSet xs).
Proof. apply NoDup_foldl_add. constructor. Qed.

Lemma has_spec (s : t) (x : string) : has s x <-> x ∈ s.
Proof. unfold has. apply bool_decide_spec. Qed.


Lemma foldl_add_NoDup_id (xs : list string) (s : t) :
  (forall x, x ∈ xs -> x ∈ s) -> foldl add s xs = s.
Proof.
  revert s. induction xs as [ | x xs IH]; intros s Hsub; cbn [foldl]; [reflexivity | ].
  assert (Hx : x ∈ s) by (apply Hsub; left).
  unfold add at 2. rewrite decide_True by exact Hx.
  apply IH. intros y Hy. apply Hsub. now right.
Qed.

Lemma foldl_add_app_NoDup (xs : list string) (s : t) :
  NoDup xs -> (forall x, x ∈ xs -> x ∉ s) -> foldl add s xs = s ++ xs.
Proof.
  revert s. induction xs as [ | x xs IH]; intros s Hnd Hfresh; cbn [foldl].
  - now rewrite app_nil_r.
  - apply NoDup_cons in Hnd as [Hx Hnd].
    unfold add at 2. rewrite decide_False by (apply Hfresh; left).
    rewrite IH; [now rewrite <- app_assoc | exact Hnd | ].
    intros y Hy. rewrite elem_of_app, list_elem_of_singleton.
    intros [Hs | ->]; [ | contradiction ].
    apply (Hfresh y); [now right | exact Hs].
Qed.

(** Rebuilding a [Set] from a duplicate-free list gives the list back. *)
Lemma newSet_NoDup (xs : list string) : NoDup xs -> newSet xs = xs.
Proof.
  intros Hnd. unfold newSet.
  rewrite foldl_add_app_NoDup; [reflexivity | exact Hnd | ].
  intros x _. apply not_elem_of_nil.
Qed.
End JsSetTheory.

Module WalkTheory.
Import Geo App JsSet JsSetTheory.
Local Open Scope R_scope.

(** *** Derived values *)

Lemma insertByOrder_perm (p : Piece.t) (l : list Piece.t) :
  insertByOrder p l ≡ₚ p :: l.
Proof.
  induction l as [ | q l IH]; cbn [insertByOrder]; [reflexivity | ].
  destruct (Piece.order p <=? Piece.order q)%Z; [reflexivity | ].
  rewrite IH. apply Permutation_swap.
Qed.

(** Sorting only reorders the pieces. *)
Lemma sortByOrder_perm (l : list Piece.t) : sortByOrder l ≡ₚ l.
Proof.
  unfold sortByOrder. induction l as [ | p l IH]; cbn [foldr]; [reflexivity | ].
  now rewrite insertByOrder_perm, IH.
Qed.

Lemma elem_of_orderedPieces (st : State) (p : Piece.t) :
  p ∈ orderedPieces st <-> p ∈ pieces st.
Proof. unfold orderedPieces. now rewrite sortByOrder_perm. Qed.

(** [remaining] holds exactly the pieces whose id is not collected. *)
Lemma elem_of_remaining (st : State) (p : Piece.t) :
  p ∈ remaining st <-> p ∈ pieces st /\ Piece.id p ∉ collectedIds st.
Proof.
  unfold remaining, collectedSet.
  rewrite list_elem_of_filter, elem_of_orderedPieces, has_spec, elem_of_newSet.
  tauto.
Qed.

(** *** One position sample *)

Lemma elem_of_newlyCollected (rem : list Piece.t) (radius : R)
    (pos : Coordinate) (i : string) :
  i ∈ newlyCollected rem radius pos <->
  exists piece, piece ∈ rem /\ Piece.id piece = i
                /\ haversineMeters pos piece <= radius.
Proof.
  unfold newlyCollected. rewrite list_elem_of_fmap. split.
  - intros (piece & -> & Hin). apply list_elem_of_filter in Hin as [Hd Hin].
    now exists piece.
  - intros (piece & Hin & <- & Hd). exists piece. split; [reflexivity | ].
    now apply list_elem_of_filter.
Qed.

Lemma collectedIds_watchSuccess (w : WatchClosure) (pos : Coordinate)
    (st : State) (i : string) :
  i ∈ collectedIds (watchSuccess w pos st) <->
  i ∈ collectedIds st
  \/ i ∈ newlyCollected (w_remaining w) (w_collectionRadius w) pos.
Proof.
  unfold watchSuccess.
  destruct (decide (length _ = 0%nat)) as [Hnone | Hsome].
  - apply nil_length_inv in Hnone. rewrite Hnone, elem_of_nil. cbn. tauto.
  - cbn. unfold spread. now rewrite elem_of_newSet, elem_of_app.
Qed.

(** X1: when a position sample is processed, the ids in CollectedSet
    afterwards are those that were there plus the ids of the pieces of
    [remaining] whose distance to the sample is at most
    [collectionRadius]; a piece of [remaining] at distance exactly
    [collectionRadius] is collected; [remaining] holds exactly the
    pieces whose id is not yet in CollectedSet, and it is the list that
    [startWalk] hands to the callback together with the radius. *)
Theorem sample_collects_within_radius (w : WatchClosure) (pos : Coordinate)
    (st : State) :
  (forall i,
     i ∈ collectedIds (watchSuccess w pos st) <->
     i ∈ collectedIds st
     \/ exists piece, piece ∈ w_remaining w /\ Piece.id piece = i
                      /\ haversineMeters pos piece <= w_collectionRadius w)
  /\ (forall piece,
        piece ∈ w_remaining w ->
        haversineMeters pos piece = w_collectionRadius w ->
        Piece.id piece ∈ collectedIds (watchSuccess w pos st))
  /\ (forall piece,
        piece ∈ remaining st <->
        piece ∈ pieces st /\ Piece.id piece ∉ collectedIds st)
  /\ (selectedRouteId st ≠ ""%string -> watchIdRef st = None ->
      watchIdRef (startWalk true st) =
      Some (mkWatchClosure (remaining st) (collectionRadius st))
      /\ forall i,
           i ∈ collectedIds (deliver (Sample pos) (startWalk true st)) <->
           i ∈ collectedIds st
           \/ exists piece, piece ∈ pieces st /\ Piece.id piece = i
                            /\ haversineMeters pos piece <= collectionRadius st).
Proof.
  assert (Hiff : forall w' st' i,
    i ∈ collectedIds (watchSuccess w' pos st') <->
    i ∈ collectedIds st'
    \/ exists piece, piece ∈ w_remaining w' /\ Piece.id piece = i
                     /\ haversineMeters pos piece <= w_collectionRadius w').
  { intros w' st' i.
    now rewrite collectedIds_watchSuccess, elem_of_newlyCollected. }
  split; [apply Hiff | ].
  split.
  { intros piece Hin Hd. apply Hiff. right. exists piece.
    split; [exact Hin | ]. split; [reflexivity | ]. rewrite Hd. apply Rle_refl. }
  split; [apply elem_of_remaining | ].
  intros Hsel Hidle.
  assert (Hstart : startWalk true st =
                   emit WatchPosition
                     (setWatchIdRef
                        (Some (mkWatchClosure (remaining st) (collectionRadius st)))
                        st)).
  { unfold startWalk. rewrite decide_False by exact Hsel. cbn [negb].
    now rewrite Hidle. }
  rewrite Hstart. split; [reflexivity | ].
  intros i. unfold deliver. cbn [watchIdRef emit setWatchIdRef].
  rewrite Hiff. cbn [collectedIds emit setWatchIdRef w_remaining w_collectionRadius].
  split.
  - intros [Hold | (piece & Hin & Hid & Hd)]; [now left | ].
    apply elem_of_remaining in Hin as [Hin _]. right. now exists piece.
  - intros [Hold | (piece & Hin & Hid & Hd)]; [now left | ].
    destruct (decide (i ∈ collectedIds st)) as [Hc | Hc]; [now left | ].
    right. exists piece. split; [ | now split ].
    apply elem_of_remaining. split; [exact Hin | now rewrite Hid].
Qed.
End WalkTheory.

Module ProgressTheory.
Import Geo App Uuid JsSet JsSetTheory WalkTheory.

(** *** The guard of [saveProgress] *)

Lemma saveBlocked_true (st : State) :
  saveBlocked st = true <->
  deviceId st = "" \/ isUuid (Route.id (route st)) = false
  \/ Route.id (route st) ≠ selectedRouteId st.
Proof.
  unfold saveBlocked.
  rewrite !orb_true_iff, !bool_decide_eq_true, negb_true_iff. tauto.
Qed.

Lemma saveBlocked_false (st : State) :
  saveBlocked st = false <->
  deviceId st ≠ "" /\ isUuid (Route.id (route st)) = true
  /\ Route.id (route st) = selectedRouteId st.
Proof.
  unfold saveBlocked.
  rewrite !orb_false_iff, !bool_decide_eq_false, negb_false_iff.
  split; [intros [[Hd Hu] Hs] | intros (Hd & Hu & Hs)]; repeat split; auto.
  destruct (decide (Route.id (route st) = selectedRouteId st)); tauto.
Qed.

Lemma saveProgress_blocked (now : string) (error : option string)
    (ids : list string) (st : State) :
  saveBlocked st = true -> saveProgress now error ids st = st.
Proof. intros Hb. unfold saveProgress. now rewrite Hb. Qed.

(** [saveProgress] never touches the local collected ids. *)
Lemma collectedIds_saveProgress (now : string) (error : option string)
    (ids : list string) (st : State) :
  collectedIds (saveProgress now error ids st) = collectedIds st.
Proof.
  unfold saveProgress. destruct (saveBlocked st); [reflexivity | ].
  destruct error; reflexivity.
Qed.

Lemma pieces_saveProgress (now : string) (error : option string)
    (ids : list string) (st : State) :
  pieces (saveProgress now error ids st) = pieces st.
Proof.
  unfold saveProgress. destruct (saveBlocked st); [reflexivity | ].
  destruct error; reflexivity.
Qed.

(** What an unblocked save sends, and what the table holds after the
    store accepted it. *)
Lemma saveProgress_sends (now : string) (error : option string)
    (ids : list string) (st : State) :
  saveBlocked st = false ->
  let row := mkProgressRow (filter (λ id, isUuid id) ids)
               (completedAtOf (length (pieces st)) (filter (λ id, isUuid id) ids) now)
               now in
  trace (saveProgress now error ids st) =
    trace st ++ [UpsertProgress (Route.id (route st)) (deviceId st) row]
  /\ (error = None ->
      progressTable (saveProgress now error ids st) =
        <[(Route.id (route st), deviceId st) := row]> (progressTable st)).
Proof.
  intros Hb row. unfold saveProgress. rewrite Hb.
  destruct error as [message | ]; cbn; split; try reflexivity. discriminate.
Qed.

(** X3: when the device id is empty, or the id of the current route is
    not a UUID, or it differs from the selected route id, [saveProgress]
    returns at once: no request is sent and nothing local changes; so
    nothing is persisted for the built-in default route nor for a route
    made by [newRoute] that was not saved yet. *)
Theorem saveProgress_guard (now : string) (error : option string)
    (ids : list string) (st : State) :
  (deviceId st = "" \/ isUuid (Route.id (route st)) = false
   \/ Route.id (route st) ≠ selectedRouteId st ->
   saveProgress now error ids st = st)
  /\ (route st = DEFAULT_ROUTE -> saveProgress now error ids st = st)
  /\ (forall uuid,
        saveProgress now error ids (newRoute uuid st) = newRoute uuid st).
Proof.
  split; [ | split ].
  - intros Hg. apply saveProgress_blocked. now apply saveBlocked_true.
  - intros Hr. apply saveProgress_blocked, saveBlocked_true.
    right; left. now rewrite Hr.
  - intros uuid. apply saveProgress_blocked, saveBlocked_true.
    cbn. destruct (decide (uuid = "")) as [-> | Hne]; [ | now right; right ].
    right; left. reflexivity.
Qed.

Lemma saveProgress_guard_witness :
  let st := setDeviceId "device-1" initialState in
  isUuid (Route.id (route st)) = false
  /\ saveProgress "2024-05-01T10:00:00.000Z" None
       ["3f2b1c4d-5e6f-4a7b-8c9d-0e1f2a3b4c5d"] st = st.
Proof.
  split; [reflexivity | ].
  apply (proj1 (saveProgress_guard _ _ _ _)). right; left. reflexivity.
Defined.

(** *** Completion stamp *)

Lemma completedAtOf_Some (n : nat) (validIds : list string) (now : string) :
  completedAtOf n validIds now = Some now <->
  (0 < n)%nat /\ length validIds = n.
Proof.
  unfold completedAtOf.
  destruct (bool_decide_reflect (0 < n)%nat) as [Hn | Hn],
           (bool_decide_reflect (length validIds = n)) as [Hl | Hl]; cbn;
    (split; [intros Heq | intros [Hn' Hl']]);
    first [discriminate | contradiction | reflexivity | now split].
Qed.

Lemma completedAtOf_None (n : nat) (validIds : list string) (now : string) :
  completedAtOf n validIds now = None <->
  ~ ((0 < n)%nat /\ length validIds = n).
Proof.
  rewrite <- (completedAtOf_Some n validIds now). unfold completedAtOf.
  destruct (_ && _); split; congruence.
Qed.

(** Fixtures: a route that is stored and selected, on a known device. *)
Definition routeX : Route.t :=
  Route.mk "9b2e4c1a-7d3f-4e5a-9c6b-1a2b3c4d5e6f" "Harbour loop"
           (mkCoordinate 0 0) 800.

Definition onRouteX (ps : list Piece.t) : State :=
  setPieces ps
    (setSelectedRouteId (Route.id routeX)
       (setRoute routeX (setDeviceId "device-1" initialState))).

Definition legacyPiece : Piece.t := Piece.mk "legacy-1" 0 0 1 None.

Definition uuidPiece : Piece.t :=
  Piece.mk "3f2b1c4d-5e6f-4a7b-8c9d-0e1f2a3b4c5d" 0 0 1 None.

(** Example: when a collected id is not a UUID, the collected set has
    as many ids as there are pieces, yet the row is written without
    completion time, because the comparison uses the filtered ids. *)
Lemma saveProgress_ignores_legacy_ids :
  let st := onRouteX [legacyPiece] in
  let ids := ["legacy-1"] in
  let now := "2024-05-01T10:00:00.000Z" in
  saveBlocked st = false
  /\ length ids = length (pieces st) /\ (0 < length (pieces st))%nat
  /\ progressTable (saveProgress now None ids st)
       !! (Route.id (route st), deviceId st)
     = Some (mkProgressRow [] None now).
Proof.
  cbn zeta. split; [reflexivity | ]. split; [reflexivity | ].
  split; [cbn; lia | ].
  destruct (saveProgress_sends "2024-05-01T10:00:00.000Z" None ["legacy-1"]
              (onRouteX [legacyPiece]) eq_refl) as [_ Htab].
  rewrite (Htab eq_refl). apply lookup_insert_eq.
Qed.

(** X4: an unblocked [saveProgress] sends one upsert for
    [(route.id, deviceId)]; its row holds the ids of the collected set
    that are valid UUIDs (the others are dropped), the update time
    [now], and a completion time that is [now] if and only if the
    number of those valid ids equals the piece count and the count is
    positive, and null otherwise; the table holds that row when the
    store reports no error. *)
Theorem saveProgress_row (now : string) (error : option string)
    (ids : list string) (st : State) :
  saveBlocked st = false ->
  exists row,
    trace (saveProgress now error ids st) =
      trace st ++ [UpsertProgress (Route.id (route st)) (deviceId st) row]
    /\ (error = None ->
        progressTable (saveProgress now error ids st)
          !! (Route.id (route st), deviceId st) = Some row)
    /\ collected_piece_ids row = filter (λ id, isUuid id) ids
    /\ (forall i, i ∈ collected_piece_ids row <-> i ∈ ids /\ isUuid i = true)
    /\ updated_at row = now
    /\ (completed_at row = Some now <->
        (0 < length (pieces st))%nat
        /\ length (collected_piece_ids row) = length (pieces st))
    /\ (completed_at row = None <->
        ~ ((0 < length (pieces st))%nat
           /\ length (collected_piece_ids row) = length (pieces st))).
Proof.
  intros Hb.
  destruct (saveProgress_sends now error ids st Hb) as [Htr Htab].
  eexists. split; [exact Htr | ].
  split; [intros He; rewrite (Htab He); apply lookup_insert_eq | ].
  cbn [collected_piece_ids updated_at completed_at].
  split; [reflexivity | ].
  split.
  { intros i. rewrite list_elem_of_filter. rewrite Is_true_true. tauto. }
  split; [reflexivity | ].
  split; [apply completedAtOf_Some | apply completedAtOf_None].
Qed.

Lemma saveProgress_row_witness :
  let st := onRouteX [uuidPiece] in
  let now := "2024-05-01T10:00:00.000Z" in
  exists row,
    progressTable (saveProgress now None [Piece.id uuidPiece; "legacy-1"] st)
      !! (Route.id (route st), deviceId st) = Some row
    /\ collected_piece_ids row = [Piece.id uuidPiece]
    /\ completed_at row = Some now.
Proof.
  cbn zeta.
  destruct (saveProgress_row "2024-05-01T10:00:00.000Z" None
              [Piece.id uuidPiece; "legacy-1"] (onRouteX [uuidPiece]) eq_refl)
    as (row & _ & Htab & Hids & _ & _ & Hdone & _).
  exists row. split; [exact (Htab eq_refl) | ].
  split; [rewrite Hids; reflexivity | ].
  apply Hdone. rewrite Hids. cbn. split; [lia | reflexivity].
Defined.

(** *** Monotone collection and reset *)

Lemma collectedIds_deliver_mono (ev : GeoEvent) (st : State) (i : string) :
  i ∈ collectedIds st -> i ∈ collectedIds (deliver ev st).
Proof.
  intros Hi. unfold deliver.
  destruct (watchIdRef st) as [w | ]; [ | exact Hi ].
  destruct ev as [pos | ]; [ | exact Hi ].
  apply collectedIds_watchSuccess. now left.
Qed.

Lemma collectedIds_deliverAll_mono (evs : list GeoEvent) (st : State)
    (i : string) :
  i ∈ collectedIds st -> i ∈ collectedIds (deliverAll evs st).
Proof.
  unfold deliverAll. revert st.
  induction evs as [ | ev evs IH]; intros st Hi; cbn [foldl]; [exact Hi | ].
  apply IH. now apply collectedIds_deliver_mono.
Qed.

Lemma collectedIds_resetProgress (now : string) (error : option string)
    (st : State) :
  collectedIds (resetProgress now error st) = [].
Proof. unfold resetProgress. now rewrite collectedIds_saveProgress. Qed.

(** Fixtures: the walker collected the piece of route X and progress
    was persisted; then the admin made a new route and imported the
    exported route X again, which leaves no route selected. *)
Definition walked : State :=
  saveEffect "2024-05-01T10:00:00.000Z" None
    (setCollectedIds [Piece.id uuidPiece] (onRouteX [uuidPiece])).

Definition reimported : State :=
  importRoute
    (Some (mkPayload (Some routeX) (Some [uuidPiece]) None None None))
    (newRoute "0a1b2c3d-4e5f-4a6b-8c7d-9e0f1a2b3c4d" walked).

(** Example: in a state where the route id differs from the selected
    route id, [resetProgress] empties the local collected ids but sends
    nothing, and the persisted progress of that route and device still
    lists the piece. *)
Lemma reset_leaves_persisted_progress :
  let st := reimported in
  let key := (Route.id (route st), deviceId st) in
  let st' := resetProgress "2024-05-01T11:00:00.000Z" None st in
  Route.id (route st) = Route.id routeX
  /\ collected_piece_ids <$> progressTable st !! key = Some [Piece.id uuidPiece]
  /\ collectedIds st' = []
  /\ collected_piece_ids <$> progressTable st' !! key = Some [Piece.id uuidPiece]
  /\ trace st' = trace st.
Proof. cbn zeta. repeat apply conj; vm_compute; reflexivity. Qed.

(** X2: over any run of position events the ids already in
    CollectedSet stay in it, each sample adding the newly collected ids
    to the previous set; [resetProgress] leaves CollectedSet empty
    whatever happened before; when the save guard passes it sends the
    empty set to the progress store, which holds it once the store
    reports no error; when the guard blocks, the persisted progress is
    left as it was. *)
Theorem collected_grows_until_reset (evs : list GeoEvent) (now : string)
    (error : option string) (st : State) :
  (forall i, i ∈ collectedIds st -> i ∈ collectedIds (deliverAll evs st))
  /\ (forall w pos i,
        i ∈ collectedIds (watchSuccess w pos st) <->
        i ∈ collectedIds st
        \/ i ∈ newlyCollected (w_remaining w) (w_collectionRadius w) pos)
  /\ collectedIds (resetProgress now error (deliverAll evs st)) = []
  /\ (saveBlocked st = false ->
      trace (resetProgress now error st) =
        trace st ++ [UpsertProgress (Route.id (route st)) (deviceId st)
                                    (mkProgressRow [] None now)]
      /\ (error = None ->
          progressTable (resetProgress now error st)
            !! (Route.id (route st), deviceId st)
          = Some (mkProgressRow [] None now)))
  /\ (saveBlocked st = true ->
      progressTable (resetProgress now error st) = progressTable st
      /\ trace (resetProgress now error st) = trace st).
Proof.
  split; [intros i; apply collectedIds_deliverAll_mono | ].
  split; [intros w pos i; apply collectedIds_watchSuccess | ].
  split; [apply collectedIds_resetProgress | ].
  split.
  - intros Hb. unfold resetProgress.
    destruct (saveProgress_sends now error [] (setCollectedIds [] st) Hb)
      as [Htr Htab].
    assert (Hrow : completedAtOf (length (pieces st)) [] now = None).
    { apply completedAtOf_None. cbn. lia. }
    cbn in Htr, Htab. rewrite Hrow in Htr, Htab.
    split; [exact Htr | ].
    intros He. rewrite (Htab He). apply lookup_insert_eq.
  - intros Hb. unfold resetProgress.
    rewrite saveProgress_blocked by exact Hb. split; reflexivity.
Qed.

Lemma collected_grows_until_reset_witness :
  let st := setCollectedIds ["3f2b1c4d-5e6f-4a7b-8c9d-0e1f2a3b4c5d"]
              (onRouteX [uuidPiece]) in
  let now := "2024-05-01T11:00:00.000Z" in
  saveBlocked st = false
  /\ collectedIds (resetProgress now None st) = []
  /\ progressTable (resetProgress now None st)
       !! (Route.id (route st), deviceId st)
     = Some (mkProgressRow [] None now).
Proof.
  cbn zeta.
  destruct (collected_grows_until_reset [] "2024-05-01T11:00:00.000Z" None
              (setCollectedIds ["3f2b1c4d-5e6f-4a7b-8c9d-0e1f2a3b4c5d"]
                 (onRouteX [uuidPiece])))
    as (_ & _ & Hempty & Hsend & _).
  split; [reflexivity | ]. split; [exact Hempty | ].
  now apply Hsend.
Defined.
End ProgressTheory.

Module IconsTheory.
Import Icons.
Local Open Scope Z_scope.

Lemma toInt32_range (x : Z) : - 2 ^ 31 <= toInt32 x < 2 ^ 31.
Proof.
  unfold toInt32. pose proof (Z.mod_pos_bound (x + 2 ^ 31) (2 ^ 32) ltac:(lia)).
  lia.
Qed.

Lemma toInt32_shift (x k : Z) : toInt32 (x + k * 2 ^ 32) = toInt32 x.
Proof.
  unfold toInt32. f_equal.
  replace (x + k * 2 ^ 32 + 2 ^ 31) with (x + 2 ^ 31 + k * 2 ^ 32) by ring.
  apply Z_mod_plus_full.
Qed.

(** [ToInt32 x] differs from [x] by a multiple of [2^32]. *)
Lemma toInt32_decompose (x : Z) : exists q, toInt32 x = x + q * 2 ^ 32.
Proof.
  exists (- ((x + 2 ^ 31) / 2 ^ 32)). unfold toInt32.
  pose proof (Z.div_mod (x + 2 ^ 31) (2 ^ 32) ltac:(lia)). lia.
Qed.

Lemma toInt32_small (x : Z) : - 2 ^ 31 <= x < 2 ^ 31 -> toInt32 x = x.
Proof.
  intros Hx. unfold toInt32. rewrite Z.mod_small by lia. lia.
Qed.

Lemma hashLoop_int32 (value : string) (hash : Z) :
  - 2 ^ 31 <= hash < 2 ^ 31 -> - 2 ^ 31 <= hashLoop hash value < 2 ^ 31.
Proof.
  revert hash. induction value as [ | c rest IH]; intros hash Hh; cbn [hashLoop].
  - exact Hh.
  - apply IH. unfold hashStep. apply toInt32_range.
Qed.

(** One turn of the loop of [hashString] computes
    [31 * hash + charCode] wrapped to a signed 32-bit integer. *)
Theorem hashStep_polynomial (hash : Z) (c : ascii) :
  hashStep hash c = toInt32 (31 * hash + charCode c).
Proof.
  unfold hashStep. rewrite Z.shiftl_mul_pow2 by lia.
  destruct (toInt32_decompose hash) as [q Hq]. rewrite Hq.
  destruct (toInt32_decompose ((hash + q * 2 ^ 32) * 2 ^ 5)) as [q' Hq'].
  rewrite Hq'.
  replace ((hash + q * 2 ^ 32) * 2 ^ 5 + q' * 2 ^ 32 - hash + charCode c)
    with (31 * hash + charCode c + (q * 2 ^ 5 + q') * 2 ^ 32) by ring.
  apply toInt32_shift.
Qed.

(** X5: [hashString] returns an integer between 0 and [2^31], for every
    string; the marker shape looked up with it always exists. *)
Theorem hashString_shape_defined (value : string) :
  0 <= hashString value <= 2 ^ 31
  /\ 0 <= shapeIndex value < 4
  /\ exists class, shapeClass value = Some class /\ class ∈ SHAPE_CLASSES.
Proof.
  assert (Hrange : 0 <= hashString value <= 2 ^ 31).
  { unfold hashString. pose proof (hashLoop_int32 value 0 ltac:(lia)). lia. }
  assert (Hidx : 0 <= shapeIndex value < 4).
  { unfold shapeIndex. cbn [SHAPE_CLASSES length Z.of_nat].
    apply Z.mod_pos_bound. lia. }
  split; [exact Hrange | ]. split; [exact Hidx | ].
  unfold shapeClass.
  destruct (lookup_lt_is_Some_2 SHAPE_CLASSES (Z.to_nat (shapeIndex value)))
    as [class Hclass]; [cbn; lia | ].
  exists class. split; [exact Hclass | ].
  eapply list_elem_of_lookup_2, Hclass.
Qed.
End IconsTheory.

Module GeoBounds.
Import Geo GeoTheory.
Local Open Scope R_scope.

Lemma hav_same_place `{LatLng A, LatLng B} (a : A) (b : B) :
  lat_of a = lat_of b -> lng_of a = lng_of b -> hav a b = 0.
Proof.
  intros Hlat Hlng. unfold hav. rewrite Hlat, Hlng, !Rminus_diag, toRad_0.
  replace (0 / 2) with 0 by lra. rewrite sin_0. ring.
Qed.

Lemma haversine_same_place `{LatLng A, LatLng B} (a : A) (b : B) :
  lat_of a = lat_of b -> lng_of a = lng_of b -> haversineMeters a b = 0.
Proof.
  intros Hlat Hlng. unfold haversineMeters.
  rewrite hav_same_place by assumption. rewrite sqrt_0, asin_0. ring.
Qed.

(** X6: the distance computed by [haversineMeters] never exceeds half
    the circumference of the sphere, [PI * 6371000] metres, and it is 0
    between a position and a piece that have the same latitude and
    longitude. *)
Theorem haversineMeters_bounded `{LatLng A, LatLng B} (a : A) (b : B) :
  haversineMeters a b <= PI * 6371000
  /\ (lat_of a = lat_of b -> lng_of a = lng_of b -> haversineMeters a b = 0).
Proof.
  split.
  - unfold haversineMeters, R_earth.
    pose proof (asin_bound (sqrt (hav a b))) as [_ Hup]. lra.
  - now apply haversine_same_place.
Qed.

Lemma haversineMeters_bounded_witness :
  haversineMeters (mkCoordinate 10 20) (Piece.mk "p" 10 20 1 None) = 0.
Proof.
  apply (haversineMeters_bounded (mkCoordinate 10 20) (Piece.mk "p" 10 20 1 None));
    reflexivity.
Defined.
End GeoBounds.

Module UuidTheory.
Import Uuid.

Lemma matches_length (pat : list CharClass) (s : string) :
  matches pat s = true -> String.length s = length pat.
Proof.
  revert s. induction pat as [ | k pat IH]; intros [ | c s]; cbn; try discriminate.
  - reflexivity.
  - intros Hm. apply andb_true_iff in Hm as [_ Hm]. f_equal. now apply IH.
Qed.

Lemma matches_get (pat : list CharClass) (s : string) (n : nat) (k : CharClass) :
  matches pat s = true -> pat !! n = Some k ->
  exists c, String.get n s = Some c /\ matchClass k c = true.
Proof.
  revert s n. induction pat as [ | k0 pat IH]; intros [ | c s] n; cbn;
    try discriminate.
  intros Hm Hk. apply andb_true_iff in Hm as [Hc Hm].
  destruct n as [ | n]; cbn in Hk.
  - injection Hk as <-. now exists c.
  - now apply IH.
Qed.

Lemma matchClass_Dash (c : ascii) : matchClass Dash c = true -> c = "-"%char.
Proof. cbn. apply Ascii.eqb_eq. Qed.

(** X7: a string that [isUuid] accepts has exactly 36 characters, a
    dash at the indices 8, 13, 18 and 23, and a version digit from 1 to
    5 at index 14; the empty string, which stands for an absent value,
    and the id of the built-in default route are rejected. *)
Theorem isUuid_shape (value : string) :
  (isUuid value = true ->
   String.length value = 36%nat
   /\ (forall n, n ∈ [8; 13; 18; 23]%nat -> String.get n value = Some "-"%char)
   /\ exists v, String.get 14 value = Some v
                /\ (49 <= nat_of_ascii v <= 53)%nat)
  /\ isUuid "" = false
  /\ isUuid (Route.id DEFAULT_ROUTE) = false.
Proof.
  split; [ | split; reflexivity ].
  unfold isUuid. intros Hm.
  split; [now rewrite (matches_length _ _ Hm) | ].
  split.
  - intros n Hn.
    assert (Hk : pattern !! n = Some Dash).
    { repeat (apply elem_of_cons in Hn as [-> | Hn]; [reflexivity | ]).
      now apply elem_of_nil in Hn. }
    destruct (matches_get _ _ _ _ Hm Hk) as (c & Hget & Hc).
    now rewrite Hget, (matchClass_Dash c Hc).
  - destruct (matches_get pattern value 14 Version Hm eq_refl) as (v & Hget & Hv).
    exists v. split; [exact Hget | ].
    cbn in Hv. unfold between in Hv.
    apply andb_true_iff in Hv as [Hlo Hhi].
    apply Nat.leb_le in Hlo, Hhi.
    change (nat_of_ascii "1"%char) with 49%nat in Hlo.
    change (nat_of_ascii "5"%char) with 53%nat in Hhi. lia.
Qed.

Lemma isUuid_shape_witness :
  String.length "3f2b1c4d-5e6f-4a7b-8c9d-0e1f2a3b4c5d" = 36%nat.
Proof.
  apply (proj1 (isUuid_shape "3f2b1c4d-5e6f-4a7b-8c9d-0e1f2a3b4c5d")).
  vm_compute. reflexivity.
Defined.

(** Upper case of a letter, other characters unchanged. *)
Definition upper (c : ascii) : ascii :=
  if between "a" "z" c then ascii_of_nat (nat_of_ascii c - 32) else c.

Fixpoint upperString (s : string) : string :=
  match s with
  | EmptyString => EmptyString
  | String c s' => String (upper c) (upperString s')
  end.

Lemma matchClass_upper (k : CharClass) (c : ascii) :
  matchClass k (upper c) = matchClass k c.
Proof.
  destruct k; destruct c as [[] [] [] [] [] [] [] []]; vm_compute; reflexivity.
Qed.

(** X8: [isUuid] ignores the case of letters (flag [i] of the regular
    expression): a string and its upper-case form get the same answer. *)
Theorem isUuid_case_insensitive (value : string) :
  isUuid (upperString value) = isUuid value.
Proof.
  unfold isUuid. generalize pattern. induction value as [ | c s IH];
    intros [ | k pat]; cbn [upperString matches]; try reflexivity.
  now rewrite matchClass_upper, IH.
Qed.
End UuidTheory.

Module WalkMachine.
Import Geo App JsSet JsSetTheory WalkTheory.

(** X9: [startWalk] begins watching only when a route is selected, the
    device has geolocation and no watch is running; otherwise it keeps
    the watch reference and CollectedSet as they are: it alerts when the
    route or geolocation is missing and does nothing at all when a watch
    is already running. *)
Theorem startWalk_guard (geolocation : bool) (st : State) :
  (selectedRouteId st = "" \/ geolocation = false ->
   watchIdRef (startWalk geolocation st) = watchIdRef st
   /\ collectedIds (startWalk geolocation st) = collectedIds st
   /\ exists message, trace (startWalk geolocation st) = trace st ++ [Alert message])
  /\ (selectedRouteId st ≠ "" -> geolocation = true ->
      is_Some (watchIdRef st) -> startWalk geolocation st = st)
  /\ (selectedRouteId st ≠ "" -> geolocation = true -> watchIdRef st = None ->
      watchIdRef (startWalk geolocation st)
        = Some (mkWatchClosure (remaining st) (collectionRadius st))
      /\ collectedIds (startWalk geolocation st) = collectedIds st
      /\ trace (startWalk geolocation st) = trace st ++ [WatchPosition]).
Proof.
  unfold startWalk. split; [ | split ].
  - intros Hno. destruct (decide (selectedRouteId st = "")) as [Hsel | Hsel].
    + repeat split. now eexists.
    + destruct Hno as [Hno | ->]; [contradiction | ]. cbn [negb].
      repeat split. now eexists.
  - intros Hsel -> [w Hw]. rewrite decide_False by exact Hsel. cbn [negb].
    now rewrite Hw.
  - intros Hsel -> Hidle. rewrite decide_False by exact Hsel. cbn [negb].
    rewrite Hidle. repeat split.
Qed.

Lemma startWalk_guard_witness :
  let st := setSelectedRouteId "9b2e4c1a-7d3f-4e5a-9c6b-1a2b3c4d5e6f" initialState in
  trace (startWalk true st) = [WatchPosition]
  /\ startWalk true (startWalk true st) = startWalk true st.
Proof.
  cbn zeta.
  destruct (startWalk_guard true
              (setSelectedRouteId "9b2e4c1a-7d3f-4e5a-9c6b-1a2b3c4d5e6f" initialState))
    as (_ & _ & Hstart).
  destruct Hstart as (Hw & _ & Htr); [discriminate | reflexivity | reflexivity | ].
  split; [exact Htr | ].
  apply (proj1 (proj2 (startWalk_guard true _))); [discriminate | reflexivity | ].
  rewrite Hw. now eexists.
Defined.

(** X10: [stopWalk] always leaves the engine idle and never changes
    CollectedSet; it is a no-op when already idle, so stopping twice is
    stopping once; it clears the watch exactly when one was running; a
    position event that arrives after the stop changes nothing. *)
Theorem stopWalk_releases (ev : GeoEvent) (st : State) :
  watchIdRef (stopWalk st) = None
  /\ collectedIds (stopWalk st) = collectedIds st
  /\ stopWalk (stopWalk st) = stopWalk st
  /\ deliver ev (stopWalk st) = stopWalk st
  /\ (watchIdRef st = None -> stopWalk st = st)
  /\ (is_Some (watchIdRef st) -> trace (stopWalk st) = trace st ++ [ClearWatch]).
Proof.
  unfold stopWalk, deliver.
  destruct (watchIdRef st) as [w | ] eqn:Hw; cbn; rewrite ?Hw;
    repeat split; try reflexivity.
  - discriminate.
  - intros [w' Hw']. discriminate.
Qed.

Lemma stopWalk_releases_witness :
  let st := startWalk true
              (setSelectedRouteId "9b2e4c1a-7d3f-4e5a-9c6b-1a2b3c4d5e6f"
                                  initialState) in
  trace (stopWalk st) = [WatchPosition; ClearWatch].
Proof.
  cbn zeta.
  rewrite (proj2 (proj2 (proj2 (proj2 (proj2
             (stopWalk_releases ReadFailure
                (startWalk true
                   (setSelectedRouteId "9b2e4c1a-7d3f-4e5a-9c6b-1a2b3c4d5e6f"
                                       initialState)))))))).
  - vm_compute. reflexivity.
  - vm_compute. now eexists.
Defined.

(** X11: processing a position sample is purely local: the callback
    records the position and may extend CollectedSet, but it makes no
    outgoing call (no alert, no request to the store), and it leaves the
    pieces, the route, the watch and the persisted progress untouched.
    (Persisting a changed CollectedSet is the separate [saveEffect],
    which sends ids only.) *)
Theorem sample_is_local (pos : Coordinate) (st : State) :
  let st' := deliver (Sample pos) st in
  trace st' = trace st
  /\ progressTable st' = progressTable st
  /\ pieces st' = pieces st
  /\ route st' = route st
  /\ watchIdRef st' = watchIdRef st
  /\ (is_Some (watchIdRef st) -> userPos st' = Some pos).
Proof.
  cbn zeta. unfold deliver.
  destruct (watchIdRef st) as [w | ] eqn:Hw.
  - unfold watchSuccess.
    destruct (decide (length _ = 0%nat)); cbn; rewrite ?Hw; repeat split.
  - rewrite Hw. repeat split. intros [w Hw']. discriminate.
Qed.

Lemma sample_is_local_witness :
  let st := startWalk true
              (setSelectedRouteId "9b2e4c1a-7d3f-4e5a-9c6b-1a2b3c4d5e6f"
                                  initialState) in
  userPos (deliver (Sample (mkCoordinate 1 2)) st) = Some (mkCoordinate 1 2).
Proof.
  cbn zeta. apply sample_is_local. vm_compute. now eexists.
Defined.

(** X12: a failure of the position source is reported with an alert and
    nothing else: CollectedSet, the pieces, the last known position and
    the running watch stay as they were, so the walk goes on. *)
Theorem read_failure_keeps_walk (st : State) :
  let st' := deliver ReadFailure st in
  collectedIds st' = collectedIds st
  /\ pieces st' = pieces st
  /\ userPos st' = userPos st
  /\ watchIdRef st' = watchIdRef st
  /\ progressTable st' = progressTable st
  /\ (is_Some (watchIdRef st) ->
      exists message, trace st' = trace st ++ [Alert message]).
Proof.
  cbn zeta. unfold deliver, watchError.
  destruct (watchIdRef st) as [w | ] eqn:Hw; cbn; rewrite ?Hw; repeat split.
  - intros _. now eexists.
  - intros [w Hw']. discriminate.
Qed.

Lemma read_failure_keeps_walk_witness :
  let st := startWalk true
              (setSelectedRouteId "9b2e4c1a-7d3f-4e5a-9c6b-1a2b3c4d5e6f"
                                  initialState) in
  exists message, trace (deliver ReadFailure st) =
                  [WatchPosition; Alert message].
Proof.
  cbn zeta.
  destruct (read_failure_keeps_walk
              (startWalk true
                 (setSelectedRouteId "9b2e4c1a-7d3f-4e5a-9c6b-1a2b3c4d5e6f"
                                     initialState)))
    as (_ & _ & _ & _ & _ & Htr).
  destruct Htr as [message Htr]; [vm_compute; now eexists | ].
  exists message. exact Htr.
Defined.
End WalkMachine.

Module CollectOnce.
Import Geo App JsSet JsSetTheory WalkTheory.

Lemma newSet_app (xs ys : list string) :
  newSet (xs ++ ys) = foldl add (newSet xs) ys.
Proof. unfold newSet. apply foldl_app. Qed.

Lemma newSet_idem_app (xs ys : list string) :
  (forall y, y ∈ ys -> y ∈ xs) ->
  newSet (newSet xs ++ ys) = newSet xs.
Proof.
  intros Hsub. rewrite newSet_app.
  rewrite (newSet_NoDup (newSet xs)) by apply NoDup_newSet.
  apply foldl_add_NoDup_id. intros y Hy. apply elem_of_newSet. auto.
Qed.



(** X14: delivering the same position twice in a row is the same as
    delivering it once: the pieces it collects are already collected. *)
Theorem deliver_sample_idempotent (pos : Coordinate) (st : State) :
  deliver (Sample pos) (deliver (Sample pos) st) = deliver (Sample pos) st.
Proof.
  unfold deliver.
  destruct (watchIdRef st) as [w | ] eqn:Hw; [ | now rewrite Hw ].
  assert (Hkeep : watchIdRef (watchSuccess w pos st) = Some w).
  { unfold watchSuccess. destruct (decide (length _ = 0%nat)); exact Hw. }
  rewrite Hkeep. clear Hkeep. unfold watchSuccess.
  set (newly := newlyCollected (w_remaining w) (w_collectionRadius w) pos).
  destruct (decide (length newly = 0%nat)) as [Hnone | Hsome].
  - destruct st; reflexivity.
  - unfold updCollectedIds, spread. destruct st; cbn in *.
    rewrite newSet_idem_app; [reflexivity | ].
    intros y Hy. apply elem_of_app. now right.
Qed.

(** X15: with distinct piece ids and a CollectedSet without repetition
    that only names pieces of the route, the completion flag
    [allCollected] is raised exactly when the route has at least one
    piece and every piece is collected. *)
Theorem allCollected_iff (st : State) :
  NoDup (Piece.id <$> pieces st) ->
  NoDup (collectedIds st) ->
  (forall i, i ∈ collectedIds st -> i ∈ Piece.id <$> pieces st) ->
  allCollected st = true <->
  pieces st ≠ [] /\ forall p, p ∈ pieces st -> Piece.id p ∈ collectedIds st.
Proof.
  intros Hids Hcol Hsub. unfold allCollected.
  rewrite andb_true_iff, !bool_decide_eq_true.
  assert (Hincl : collectedIds st ⊆+ Piece.id <$> pieces st).
  { apply NoDup_submseteq; assumption. }
  split.
  - intros [Hpos Hlen]. split.
    + intros Hnil. rewrite Hnil in Hpos. cbn in Hpos. lia.
    + intros p Hp.
      assert (Hperm : collectedIds st ≡ₚ Piece.id <$> pieces st).
      { apply submseteq_length_Permutation; [exact Hincl | ].
        rewrite length_fmap. lia. }
      rewrite Hperm. apply list_elem_of_fmap. now exists p.
  - intros [Hne Hall]. split.
    + destruct (pieces st); [contradiction | cbn; lia].
    + assert (Hincl' : Piece.id <$> pieces st ⊆+ collectedIds st).
      { apply NoDup_submseteq; [exact Hids | ].
        intros i Hi. apply list_elem_of_fmap in Hi as (p & -> & Hp). auto. }
      apply submseteq_length in Hincl, Hincl'.
      rewrite length_fmap in Hincl, Hincl'. lia.
Qed.

Lemma allCollected_iff_witness :
  let p := Piece.mk "a" 0 0 1 None in
  let st := setCollectedIds ["a"] (setPieces [p] initialState) in
  allCollected st = true.
Proof.
  cbn zeta.
  apply allCollected_iff; cbn.
  - apply NoDup_singleton.
  - apply NoDup_singleton.
  - intros i Hi. exact Hi.
  - split; [discriminate | ].
    intros p Hp. apply list_elem_of_singleton in Hp as ->. now left.
Defined.
End CollectOnce.

Module PiecesTheory.
Import Geo Tiling App.
Local Open Scope Z_scope.

(** Placing several pieces, one map tap after the other; each tap comes
    with the id drawn for it. *)
Definition addPieces (taps : list (string * Coordinate)) (st : State) : State :=
  foldl (λ s tap, addPiece tap.1 tap.2 s) st taps.

Lemma addPiece_orders (uuid : string) (point : Coordinate) (st : State) :
  Piece.order <$> pieces st = seqZ 1 (Z.of_nat (length (pieces st))) ->
  Piece.order <$> pieces (addPiece uuid point st)
  = seqZ 1 (Z.of_nat (length (pieces (addPiece uuid point st)))).
Proof.
  intros Hdense. unfold addPiece, updPieces. cbn [pieces setPieces].
  rewrite fmap_app, length_app, Hdense. cbn [fmap list_fmap length Piece.order].
  rewrite Nat.add_1_r, seqZ_S. do 2 f_equal. lia.
Qed.

(** X16: pieces placed on a route that has none are numbered 1, 2, ...
    in the order of placement and carry no image fragment; placing a
    piece keeps the pieces already there and does not touch
    CollectedSet; more generally the numbering stays 1 .. N as long as
    pieces are only added. *)
Theorem addPieces_numbers (taps : list (string * Coordinate)) (st : State) :
  (Piece.order <$> pieces st = seqZ 1 (Z.of_nat (length (pieces st))) ->
   Piece.order <$> pieces (addPieces taps st)
   = seqZ 1 (Z.of_nat (length (pieces st) + length taps)))
  /\ pieces st `prefix_of` pieces (addPieces taps st)
  /\ Piece.id <$> pieces (addPieces taps st)
     = (Piece.id <$> pieces st) ++ taps.*1
  /\ collectedIds (addPieces taps st) = collectedIds st.
Proof.
  unfold addPieces. revert st.
  induction taps as [ | [uuid point] taps IH]; intros st;
    cbn [foldl length fmap list_fmap fst snd].
  - rewrite Nat.add_0_r, app_nil_r. repeat split; auto.
  - destruct (IH (addPiece uuid point st)) as (Hord & Hpre & Hids & Hcol).
    assert (Hlen : length (pieces (addPiece uuid point st))
                   = S (length (pieces st))).
    { unfold addPiece, updPieces. cbn. rewrite length_app. cbn. lia. }
    split; [ | split; [ | split ] ].
    + intros Hdense. rewrite Hord by now apply addPiece_orders.
      rewrite Hlen. do 2 f_equal. lia.
    + etransitivity; [ | exact Hpre ].
      unfold addPiece, updPieces. cbn. now apply prefix_app_r.
    + rewrite Hids. unfold addPiece, updPieces. cbn.
      rewrite fmap_app, <- app_assoc. reflexivity.
    + rewrite Hcol. reflexivity.
Qed.

Lemma addPieces_numbers_witness :
  Piece.order <$>
    pieces (addPieces [("a"%string, mkCoordinate 1 2);
                       ("b"%string, mkCoordinate 3 4);
                       ("c"%string, mkCoordinate 5 6)] initialState)
  = [1; 2; 3].
Proof.
  rewrite (proj1 (addPieces_numbers _ initialState)); reflexivity.
Defined.

Lemma filter_all {A : Type} (P : A -> Prop) `{forall x, Decision (P x)}
    (l : list A) :
  (forall x, x ∈ l -> P x) -> filter P l = l.
Proof.
  induction l as [ | x l IH]; intros Hall; [reflexivity | ].
  rewrite filter_cons_True by (apply Hall; left).
  f_equal. apply IH. intros y Hy. apply Hall. now right.
Qed.

(** X17: [removePiece] drops exactly the pieces with the given id and
    that id from CollectedSet; the other pieces stay, in their order
    and with the order numbers they had (nothing is renumbered); if
    CollectedSet named only pieces of the route before, it still does;
    removing an id that is neither placed nor collected changes
    nothing. *)
Theorem removePiece_effect (pieceId : string) (st : State) :
  (forall p, p ∈ pieces (removePiece pieceId st) <->
             p ∈ pieces st /\ Piece.id p ≠ pieceId)
  /\ (forall i, i ∈ collectedIds (removePiece pieceId st) <->
                i ∈ collectedIds st /\ i ≠ pieceId)
  /\ pieces (removePiece pieceId st) `sublist_of` pieces st
  /\ ((forall i, i ∈ collectedIds st -> i ∈ Piece.id <$> pieces st) ->
      forall i, i ∈ collectedIds (removePiece pieceId st) ->
                i ∈ Piece.id <$> pieces (removePiece pieceId st))
  /\ (pieceId ∉ Piece.id <$> pieces st -> pieceId ∉ collectedIds st ->
      removePiece pieceId st = st).
Proof.
  unfold removePiece, updCollectedIds, updPieces.
  cbn [pieces collectedIds setPieces setCollectedIds].
  split; [intros p; rewrite list_elem_of_filter; tauto | ].
  split; [intros i; rewrite list_elem_of_filter; tauto | ].
  split; [apply sublist_filter | ].
  split.
  - intros Hsub i Hi. apply list_elem_of_filter in Hi as [Hne Hi].
    apply Hsub, list_elem_of_fmap in Hi as (p & -> & Hp).
    apply list_elem_of_fmap. exists p. split; [reflexivity | ].
    now apply list_elem_of_filter.
  - intros Hp Hc.
    assert (Hps : filter (λ piece, Piece.id piece ≠ pieceId) (pieces st) = pieces st).
    { apply filter_all. intros p Hin Heq. apply Hp.
      apply list_elem_of_fmap. exists p. split; [now rewrite Heq | exact Hin]. }
    assert (Hcs : filter (λ id, id ≠ pieceId) (collectedIds st) = collectedIds st).
    { apply filter_all. intros i Hin ->. contradiction. }
    rewrite Hps, Hcs. destruct st; reflexivity.
Qed.

Lemma removePiece_effect_witness :
  let st := setCollectedIds ["a"; "b"]%string
              (addPieces [("a"%string, mkCoordinate 1 2);
                          ("b"%string, mkCoordinate 3 4)] initialState) in
  "b"%string ∈ Piece.id <$> pieces (removePiece "a" st).
Proof.
  cbn zeta.
  destruct (removePiece_effect "a"
              (setCollectedIds ["a"; "b"]%string
                 (addPieces [("a"%string, mkCoordinate 1 2);
                             ("b"%string, mkCoordinate 3 4)] initialState)))
    as (_ & _ & _ & Hsub & _).
  apply Hsub.
  - intros i Hi. vm_compute in Hi. vm_compute. exact Hi.
  - vm_compute. apply list_elem_of_singleton. reflexivity.
Defined.

(** X18: the rows that [saveRoute] inserts are numbered 1 .. N by
    position in the piece list, whatever order numbers the pieces
    carry; each row copies the coordinates and the fragment of its
    piece and names the saved route. *)
Theorem saveRoute_renumbers (routeId : string) (ps : list Piece.t) :
  ins_piece_order <$> saveRoutePieceRows routeId ps
  = seqZ 1 (Z.of_nat (length ps))
  /\ length (saveRoutePieceRows routeId ps) = length ps
  /\ forall k p, ps !! k = Some p ->
       saveRoutePieceRows routeId ps !! k
       = Some (mkPieceInsert routeId (Piece.lat p) (Piece.lng p)
                             (Z.of_nat k + 1) (Piece.imageFragmentUrl p)).
Proof.
  unfold saveRoutePieceRows. split; [ | split ].
  - apply list_eq. intros k.
    rewrite list_lookup_fmap, list_lookup_imap.
    destruct (ps !! k) as [p | ] eqn:Hk; cbn.
    + apply lookup_lt_Some in Hk. rewrite lookup_seqZ_lt by lia.
      f_equal. lia.
    + apply lookup_ge_None in Hk. now rewrite lookup_seqZ_ge by lia.
  - apply length_imap.
  - intros k p Hk. now rewrite list_lookup_imap, Hk.
Qed.

Lemma saveRoute_renumbers_witness :
  saveRoutePieceRows "r" [Piece.mk "x" 1 2 7 None; Piece.mk "y" 3 4 7 None]
    !! 1%nat
  = Some (mkPieceInsert "r" 3 4 2 None).
Proof.
  exact (proj2 (proj2 (saveRoute_renumbers "r"
           [Piece.mk "x" 1 2 7 None; Piece.mk "y" 3 4 7 None]))
           1%nat (Piece.mk "y" 3 4 7 None) eq_refl).
Defined.
End PiecesTheory.

Module TilingMore.
Import Geo Tiling TilingTheory App.
Local Open Scope Z_scope.

Lemma computeGrid_rows_pos (count : Z) : 0 < rows (computeGrid count).
Proof.
  pose proof (computeGrid_cols_pos count) as Hc.
  pose proof (ceil_div_bounds (Z.max 1 count) _ Hc) as Hrow.
  change (ceil_div (Z.max 1 count) (cols (computeGrid count)))
    with (rows (computeGrid count)) in Hrow.
  nia.
Qed.

(** X19: the grid of [computeGrid] is square or one row short of
    square, never taller than wide, with at least one row and one
    column, and fewer than [cols] of its cells are beyond
    [max(1, count)]: the last row is never empty. *)
Theorem computeGrid_near_square (count : Z) :
  let g := computeGrid count in
  1 <= rows g <= cols g
  /\ cols g <= rows g + 1
  /\ 0 <= cols g * rows g - Z.max 1 count < cols g.
Proof.
  cbn zeta.
  pose proof (computeGrid_cols_pos count) as Hc.
  pose proof (sqrt_up_bounds (Z.max 1 count) ltac:(lia)) as Hsq.
  pose proof (ceil_div_bounds (Z.max 1 count) _ Hc) as Hrow.
  change (Z.sqrt_up (Z.max 1 count)) with (cols (computeGrid count)) in Hsq.
  change (ceil_div (Z.max 1 count) (cols (computeGrid count)))
    with (rows (computeGrid count)) in Hrow.
  set (g := computeGrid count) in *. set (s := Z.max 1 count) in *.
  assert (Hs : 1 <= s) by (subst s; lia).
  assert (Hr1 : 1 <= rows g) by nia.
  assert (Hrc : rows g <= cols g) by nia.
  assert (Hcr : cols g <= rows g + 1) by nia.
  repeat split; try assumption; nia.
Qed.

Lemma sliceDecoded_at (dataUrl : string) (width height cols rows : Z)
    (k : nat) (t : Tile) :
  0 < cols -> 0 < rows ->
  sliceDecoded dataUrl width height cols rows !! k = Some t ->
  (0 <= Z.of_nat k / cols < rows /\ 0 <= Z.of_nat k mod cols < cols)
  /\ t = tileAt dataUrl (width / cols) (height / rows)
               (Z.of_nat k / cols) (Z.of_nat k mod cols) (Z.of_nat k + 1).
Proof.
  intros Hc Hr Hk.
  pose proof (lookup_lt_Some _ _ _ Hk) as Hlt.
  rewrite sliceDecoded_length in Hlt.
  pose proof (Z.div_mod (Z.of_nat k) cols ltac:(lia)) as Hdm.
  pose proof (Z.mod_pos_bound (Z.of_nat k) cols Hc) as Hmod.
  assert (Hq : 0 <= Z.of_nat k / cols < rows).
  { split; [apply Z.div_pos; lia | apply Z.div_lt_upper_bound; nia]. }
  split; [now split | ].
  pose proof (sliceDecoded_lookup dataUrl width height cols rows
                (Z.of_nat k / cols) (Z.of_nat k mod cols) Hq Hmod) as Hat.
  replace (Z.to_nat (Z.of_nat k / cols * cols + Z.of_nat k mod cols))
    with k in Hat by lia.
  rewrite Hk in Hat. injection Hat as ->.
  unfold tileAt. do 2 f_equal. lia.
Qed.


End TilingMore.

Module ResliceTheory.
Import Geo Tiling TilingTheory TilingMore App.
Local Open Scope Z_scope.

Lemma pieces_applyImageFragments_lookup (fragments : list Tile) (st : State)
    (k : nat) :
  pieces (applyImageFragments fragments st) !! k
  = Piece.setImageFragmentUrl (fragment <$> fragments !! k) <$> pieces st !! k.
Proof.
  unfold applyImageFragments, updPieces. cbn [pieces setPieces].
  destruct (pieces st) as [ | p ps] eqn:Hps; [now rewrite lookup_nil | ].
  now rewrite list_lookup_imap.
Qed.

Lemma length_pieces_applyImageFragments (fragments : list Tile) (st : State) :
  length (pieces (applyImageFragments fragments st)) = length (pieces st).
Proof.
  unfold applyImageFragments, updPieces. cbn [pieces setPieces].
  destruct (pieces st) as [ | p ps]; [reflexivity | apply length_imap].
Qed.

Lemma sliceDecoded_cell (dataUrl : string) (width height cols rows : Z)
    (k : nat) :
  0 < cols -> 0 < rows -> Z.of_nat k < cols * rows ->
  fragment <$> sliceDecoded dataUrl width height cols rows !! k
  = Some (mkCrop dataUrl (Z.of_nat k mod cols * (width / cols))
                 (Z.of_nat k / cols * (height / rows))
                 (width / cols) (height / rows)).
Proof.
  intros Hc Hr Hk.
  destruct (lookup_lt_is_Some_2 (sliceDecoded dataUrl width height cols rows) k)
    as [t Ht]; [rewrite sliceDecoded_length; nia | ].
  rewrite Ht. destruct (sliceDecoded_at _ _ _ _ _ _ _ Hc Hr Ht) as (_ & ->).
  reflexivity.
Qed.

(** X21: when the image decodes, "Reslice From Pieces" sets the grid to
    [computeGrid(pieces.length)] and gives every piece a fragment: the
    piece at list index [k] gets the cell of row [k div cols] and column
    [k mod cols]; ids, coordinates and order numbers of the pieces,
    CollectedSet and the slice key of the effect are left alone. *)
Theorem reslice_assigns_cells (decode : string -> option (Z * Z))
    (width height : Z) (st : State) :
  puzzleImageUrl st ≠ "" -> pieces st ≠ [] ->
  decode (puzzleImageUrl st) = Some (width, height) ->
  let g := computeGrid (Z.of_nat (length (pieces st))) in
  let st' := resliceFromPieceCount decode st in
  gridCols st' = cols g /\ gridRows st' = rows g
  /\ length (pieces st') = length (pieces st)
  /\ (forall k p, pieces st !! k = Some p ->
        pieces st' !! k
        = Some (Piece.mk (Piece.id p) (Piece.lat p) (Piece.lng p) (Piece.order p)
                  (Some (mkCrop (puzzleImageUrl st)
                                (Z.of_nat k mod cols g * (width / cols g))
                                (Z.of_nat k / cols g * (height / rows g))
                                (width / cols g) (height / rows g)))))
  /\ collectedIds st' = collectedIds st
  /\ lastSliceRef st' = lastSliceRef st.
Proof.
  intros Hurl Hps Hdec. cbn zeta.
  set (g := computeGrid (Z.of_nat (length (pieces st)))).
  assert (Hrun : resliceFromPieceCount decode st
                 = applyImageFragments
                     (sliceDecoded (puzzleImageUrl st) width height (cols g) (rows g))
                     (emit (SliceImage (puzzleImageUrl st) (cols g) (rows g))
                        (setGridRows (rows g) (setGridCols (cols g) st)))).
  { unfold resliceFromPieceCount.
    rewrite decide_False by (intros [? | ?]; contradiction).
    fold g. unfold sliceAndApply, sliceImage. now rewrite Hdec. }
  rewrite Hrun.
  pose proof (computeGrid_cols_pos (Z.of_nat (length (pieces st)))) as Hc.
  pose proof (computeGrid_covers (Z.of_nat (length (pieces st)))) as Hcov.
  pose proof (computeGrid_rows_pos (Z.of_nat (length (pieces st)))) as Hr.
  fold g in Hc, Hcov, Hr.
  split; [reflexivity | ]. split; [reflexivity | ].
  split; [now rewrite length_pieces_applyImageFragments | ].
  split; [ | split; reflexivity ].
  intros k p Hk. rewrite pieces_applyImageFragments_lookup.
  cbn [pieces emit setGridRows setGridCols]. rewrite Hk. cbn [fmap option_fmap option_map].
  pose proof (lookup_lt_Some _ _ _ Hk) as Hlt.
  rewrite sliceDecoded_cell by lia. reflexivity.
Qed.

Lemma reslice_assigns_cells_witness :
  let p := Piece.mk "a" 0 0 1 None in
  let st := setPuzzleImageUrl "data:image/png;base64,AAAA"
              (setPieces [p; p; p] initialState) in
  pieces (resliceFromPieceCount (λ _, Some (200, 100)) st) !! 2%nat
  = Some (Piece.mk "a" 0 0 1
            (Some (mkCrop "data:image/png;base64,AAAA" 0 50 100 50))).
Proof.
  cbn zeta.
  destruct (reslice_assigns_cells (λ _, Some (200, 100)) 200 100
              (setPuzzleImageUrl "data:image/png;base64,AAAA"
                 (setPieces [Piece.mk "a" 0 0 1 None; Piece.mk "a" 0 0 1 None;
                             Piece.mk "a" 0 0 1 None] initialState)))
    as (_ & _ & _ & Hat & _); [discriminate | discriminate | reflexivity | ].
  exact (Hat 2%nat _ eq_refl).
Defined.

(** X22: when the image does not decode, slicing replaces no fragment:
    "Reslice From Pieces" leaves every piece as it was and reports
    "Failed to load image." in an alert; choosing no file in the upload
    changes nothing, and a file that cannot be read only raises an
    alert. *)
Theorem slice_failure_keeps_pieces (decode : string -> option (Z * Z))
    (st : State) :
  (puzzleImageUrl st ≠ "" -> pieces st ≠ [] ->
   decode (puzzleImageUrl st) = None ->
   let g := computeGrid (Z.of_nat (length (pieces st))) in
   pieces (resliceFromPieceCount decode st) = pieces st
   /\ trace (resliceFromPieceCount decode st)
      = trace st ++ [SliceImage (puzzleImageUrl st) (cols g) (rows g);
                     Alert "Failed to load image."])
  /\ (puzzleImageUrl st = "" \/ pieces st = [] ->
      resliceFromPieceCount decode st = st)
  /\ handlePuzzleUpload decode None st = st
  /\ (forall message,
        pieces (handlePuzzleUpload decode (Some (Failed message)) st) = pieces st
        /\ puzzleImageUrl (handlePuzzleUpload decode (Some (Failed message)) st)
           = puzzleImageUrl st
        /\ trace (handlePuzzleUpload decode (Some (Failed message)) st)
           = trace st ++ [Alert message]).
Proof.
  split; [ | split; [ | split ] ].
  - intros Hurl Hps Hdec. cbn zeta. unfold resliceFromPieceCount.
    rewrite decide_False by (intros [? | ?]; contradiction).
    unfold sliceAndApply, sliceImage. rewrite Hdec. cbn.
    split; [reflexivity | now rewrite <- app_assoc].
  - intros Hno. unfold resliceFromPieceCount. now rewrite decide_True.
  - reflexivity.
  - intros message. repeat split.
Qed.

Lemma slice_failure_keeps_pieces_witness :
  let p := Piece.mk "a" 0 0 1 None in
  let st := setPuzzleImageUrl "not an image" (setPieces [p] initialState) in
  pieces (resliceFromPieceCount (λ _, None) st) = [p].
Proof.
  cbn zeta.
  destruct (slice_failure_keeps_pieces (λ _, None)
              (setPuzzleImageUrl "not an image"
                 (setPieces [Piece.mk "a" 0 0 1 None] initialState)))
    as (Hfail & _).
  destruct Hfail as [Hps _]; [discriminate | discriminate | reflexivity | ].
  exact Hps.
Defined.
End ResliceTheory.

Module SliceCache.
Import Geo Tiling TilingTheory App ResliceTheory.

(** *** The slice key as a string *)

(** Characters that a printed integer can hold: digits and the sign. *)
Definition numChar (c : ascii) : bool :=
  Uuid.between "0"%char "9"%char c || Ascii.eqb c "-"%char.

Fixpoint allNum (s : string) : Prop :=
  match s with
  | EmptyString => True
  | String c s' => numChar c = true /\ allNum s'
  end.

Lemma allNum_uint (d : Decimal.uint) : allNum (NilEmpty.string_of_uint d).
Proof. induction d; cbn; auto. Qed.

Lemma allNum_numToString (z : Z) : allNum (numToString z).
Proof.
  unfold numToString, NilZero.string_of_int, NilZero.string_of_uint.
  destruct (Z.to_int z) as [d | d]; destruct d; cbn; auto using allNum_uint.
Qed.

Lemma numToString_inj (z z' : Z) : numToString z = numToString z' -> z = z'.
Proof.
  unfold numToString. intros Heq.
  assert (Hnonnil : forall y, Z.to_int y ≠ Decimal.Pos Decimal.Nil
                              /\ Z.to_int y ≠ Decimal.Neg Decimal.Nil).
  { intros [ | p | p]; cbn; split; try discriminate;
      intros Hp; injection Hp as Hp; now apply Unsigned.to_uint_nonnil in Hp. }
  apply DecimalZ.to_int_inj.
  destruct (Hnonnil z) as [Hp Hn], (Hnonnil z') as [Hp' Hn'].
  pose proof (NilZero.isi _ Hp Hn) as Hz.
  pose proof (NilZero.isi _ Hp' Hn') as Hz'.
  rewrite Heq in Hz. congruence.
Qed.

(** Two strings of number characters followed by the same separator and
    anything else are equal only piece by piece. *)
Lemma split_at_separator (sep : ascii) (s1 s2 t1 t2 : string) :
  numChar sep = false -> allNum s1 -> allNum s2 ->
  s1 +:+ String sep t1 = s2 +:+ String sep t2 -> s1 = s2 /\ t1 = t2.
Proof.
  intros Hsep. revert s2.
  induction s1 as [ | c s1 IH]; intros [ | c2 s2] H1 H2 Heq; cbn in *.
  - injection Heq as ->. now split.
  - injection Heq as <- _. destruct H2 as [H2 _]. congruence.
  - injection Heq as -> _. destruct H1 as [H1 _]. congruence.
  - injection Heq as -> Heq. destruct H1 as [_ H1], H2 as [_ H2].
    destruct (IH s2 H1 H2 Heq) as [-> ->]. now split.
Qed.

(** X23: the slice key tells apart exactly the length of the image
    data URL, the piece count and the grid: two keys are equal if and
    only if these agree.  Two images whose data URLs have the same
    length therefore share their key. *)
Theorem sliceKey_separates (url url' : string) (count count' : Z) (g g' : Grid) :
  sliceKey url count g = sliceKey url' count' g' <->
  String.length url = String.length url' /\ count = count' /\ g = g'.
Proof.
  split.
  - unfold sliceKey. intros Heq.
    apply split_at_separator in Heq as [Hlen Heq];
      [ | reflexivity | apply allNum_numToString .. ].
    apply split_at_separator in Heq as [Hcount Heq];
      [ | reflexivity | apply allNum_numToString .. ].
    apply split_at_separator in Heq as [Hcols Hrows];
      [ | reflexivity | apply allNum_numToString .. ].
    apply numToString_inj in Hlen, Hcount, Hcols, Hrows.
    split; [lia | ]. split; [exact Hcount | ].
    destruct g, g'; cbn in *. congruence.
  - intros (Hlen & -> & ->). unfold sliceKey. now rewrite Hlen.
Qed.

(** *** The effect *)

Lemma sliceAndApply_frame (decode : string -> option (Z * Z)) (dataUrl : string)
    (g : Grid) (st : State) :
  let st' := sliceAndApply decode dataUrl g st in
  puzzleImageUrl st' = puzzleImageUrl st
  /\ lastSliceRef st' = lastSliceRef st
  /\ gridCols st' = gridCols st /\ gridRows st' = gridRows st
  /\ length (pieces st') = length (pieces st)
  /\ collectedIds st' = collectedIds st
  /\ exists rest, trace st' = trace st ++ SliceImage dataUrl (cols g) (rows g) :: rest.
Proof.
  cbn zeta. unfold sliceAndApply.
  destruct (sliceImage decode dataUrl (cols g) (rows g)) as [message | fragments].
  - cbn. repeat split. eexists. now rewrite <- app_assoc.
  - repeat split; try reflexivity.
    + now rewrite length_pieces_applyImageFragments.
    + eexists. cbn. reflexivity.
Qed.

(** X24: the re-slice effect does nothing when there is no image, no
    piece, or when the key of the current image length, piece count and
    grid is the one it stored last; otherwise it stores the key, sets
    the grid and calls the slicer once.  Running it again without
    another change does nothing, whether slicing succeeded or not. *)
Theorem sliceEffect_cached (decode : string -> option (Z * Z)) (st : State) :
  let g := computeGrid (Z.of_nat (length (pieces st))) in
  let key := sliceKey (puzzleImageUrl st) (Z.of_nat (length (pieces st))) g in
  let st' := sliceEffect decode st in
  (puzzleImageUrl st = "" \/ pieces st = [] \/ lastSliceRef st = key -> st' = st)
  /\ (puzzleImageUrl st ≠ "" -> pieces st ≠ [] -> lastSliceRef st ≠ key ->
      lastSliceRef st' = key
      /\ gridCols st' = cols g /\ gridRows st' = rows g
      /\ collectedIds st' = collectedIds st
      /\ exists rest,
           trace st' = trace st
                       ++ SliceImage (puzzleImageUrl st) (cols g) (rows g) :: rest)
  /\ sliceEffect decode st' = st'.
Proof.
  cbn zeta.
  set (g := computeGrid (Z.of_nat (length (pieces st)))).
  set (key := sliceKey (puzzleImageUrl st) (Z.of_nat (length (pieces st))) g).
  assert (Hskip : puzzleImageUrl st = "" \/ pieces st = [] \/ lastSliceRef st = key ->
                  sliceEffect decode st = st).
  { intros Hno. unfold sliceEffect.
    destruct (decide (puzzleImageUrl st = "" ∨ pieces st = [])) as [Hg | Hg];
      [reflexivity | ].
    fold g key. destruct Hno as [Hno | [Hno | Hno]]; try tauto.
    now rewrite decide_True. }
  split; [exact Hskip | ].
  destruct (decide (puzzleImageUrl st = "" ∨ pieces st = [] ∨ lastSliceRef st = key))
    as [Hno | Hrun].
  { rewrite (Hskip Hno). split; [ | exact (Hskip Hno) ].
    intros Hurl Hps Hkey. tauto. }
  assert (Hurl : puzzleImageUrl st ≠ "") by tauto.
  assert (Hps : pieces st ≠ []) by tauto.
  assert (Hkey : lastSliceRef st ≠ key) by tauto.
  assert (Heq : sliceEffect decode st
                = sliceAndApply decode (puzzleImageUrl st) g
                    (setGridRows (rows g) (setGridCols (cols g)
                       (setLastSliceRef key st)))).
  { unfold sliceEffect. rewrite decide_False by tauto. fold g key.
    now rewrite decide_False. }
  pose proof (sliceAndApply_frame decode (puzzleImageUrl st) g
                (setGridRows (rows g) (setGridCols (cols g) (setLastSliceRef key st))))
    as (Fu & Fk & Fc & Fr & Fl & Fi & Ft).
  cbn zeta in *. rewrite <- Heq in *.
  cbn [puzzleImageUrl lastSliceRef gridCols gridRows pieces collectedIds trace
       setGridRows setGridCols setLastSliceRef] in Fu, Fk, Fc, Fr, Fl, Fi, Ft.
  split; [intros _ _ _; repeat split; assumption | ].
  unfold sliceEffect at 1.
  destruct (decide (puzzleImageUrl (sliceEffect decode st) = ""
                    ∨ pieces (sliceEffect decode st) = [])); [reflexivity | ].
  rewrite Fu, Fl, Fk. fold g key. now rewrite decide_True.
Qed.

Lemma sliceEffect_cached_witness :
  let p := Piece.mk "a" 0 0 1 None in
  let st := setPuzzleImageUrl "data:image/png;base64,AAAA"
              (setPieces [p; p] initialState) in
  lastSliceRef (sliceEffect (λ _, Some (200%Z, 100%Z)) st) = "26:2:2x1".
Proof.
  cbn zeta.
  destruct (sliceEffect_cached (λ _, Some (200%Z, 100%Z))
              (setPuzzleImageUrl "data:image/png;base64,AAAA"
                 (setPieces [Piece.mk "a" 0 0 1 None; Piece.mk "a" 0 0 1 None]
                            initialState)))
    as (_ & Hrun & _).
  destruct Hrun as (Hkey & _); [discriminate | discriminate | discriminate | ].
  rewrite Hkey. vm_compute. reflexivity.
Defined.
End SliceCache.

Module LoadTheory.
Import Geo Tiling App Uuid JsSet JsSetTheory ProgressTheory ResliceTheory.

Lemma loadProgress_frame (error : option string) (routeId : string)
    (pieceIds : list string) (st : State) :
  let st' := loadProgress error routeId pieceIds st in
  pieces st' = pieces st /\ route st' = route st
  /\ selectedRouteId st' = selectedRouteId st
  /\ progressTable st' = progressTable st
  /\ deviceId st' = deviceId st
  /\ walkBusy st' = walkBusy st
  /\ lastRouteStored st' = lastRouteStored st.
Proof.
  cbn zeta. unfold loadProgress.
  destruct (_ || _ || _); [repeat split | ].
  destruct error; repeat split.
Qed.

Lemma loadProgress_open (routeId : string) (st : State) :
  deviceId st ≠ "" -> isUuid routeId = true ->
  bool_decide (routeId = "") || bool_decide (deviceId st = "")
  || negb (isUuid routeId) = false.
Proof.
  intros Hdev Huuid. rewrite Huuid. cbn [negb].
  rewrite (bool_decide_eq_false_2 (deviceId st = "")) by exact Hdev.
  rewrite bool_decide_eq_false_2; [reflexivity | ].
  intros ->. discriminate.
Qed.


(** X25: [loadProgress] does nothing without a device id or for a
    route id that is not a UUID.  Otherwise, when the store answers, it
    replaces CollectedSet by the persisted ids that belong to the given
    piece ids, in persisted order, and by the empty list when no row is
    stored; when the store fails it keeps CollectedSet and puts the
    message in both error fields.  It never changes the pieces or the
    persisted table. *)
Theorem loadProgress_outcomes (error : option string) (routeId : string)
    (pieceIds : list string) (st : State) :
  let st' := loadProgress error routeId pieceIds st in
  (deviceId st = "" \/ isUuid routeId = false -> st' = st)
  /\ (deviceId st ≠ "" -> isUuid routeId = true ->
      (error = None ->
       collectedIds st'
       = filter (λ id, id ∈ pieceIds)
           (default [] (collected_piece_ids <$>
                          progressTable st !! (routeId, deviceId st)))
       /\ (forall i, i ∈ collectedIds st' -> i ∈ pieceIds)
       /\ (progressTable st !! (routeId, deviceId st) = None ->
           collectedIds st' = []))
      /\ (forall message, error = Some message ->
            collectedIds st' = collectedIds st
            /\ walkError st' = message /\ adminError st' = message))
  /\ pieces st' = pieces st
  /\ progressTable st' = progressTable st.
Proof.
  cbn zeta. split; [ | split ].
  - intros Hg. unfold loadProgress.
    destruct Hg as [Hg | Hg]; rewrite Hg.
    + rewrite (bool_decide_eq_true_2 (@eq string "" "") eq_refl).
      now rewrite orb_true_r.
    + cbn [negb]. now rewrite orb_true_r.
  - intros Hdev Huuid. unfold loadProgress.
    rewrite (loadProgress_open routeId st Hdev Huuid).
    split.
    + intros ->. cbn [collectedIds setCollectedIds progressTable deviceId emit].
      assert (Hfilter : forall l : list string,
                filter (λ id : string, has (newSet pieceIds) id) l
                = filter (λ id, id ∈ pieceIds) l).
      { intros l. apply list_filter_iff. intros i.
        now rewrite has_spec, elem_of_newSet. }
      rewrite Hfilter. split; [reflexivity | ]. split.
      * intros i Hi. now apply list_elem_of_filter in Hi as [Hi _].
      * intros ->. reflexivity.
    + intros message ->. repeat split.
  - destruct (loadProgress_frame error routeId pieceIds st) as (Hp & _ & _ & Ht & _).
    now split.
Qed.

Lemma loadProgress_outcomes_witness :
  let st := setCollectedIds ["stale"] (onRouteX [uuidPiece]) in
  collectedIds (loadProgress None (Route.id routeX) [Piece.id uuidPiece] st) = [].
Proof.
  cbn zeta.
  destruct (loadProgress_outcomes None (Route.id routeX) [Piece.id uuidPiece]
              (setCollectedIds ["stale"] (onRouteX [uuidPiece])))
    as (_ & Hopen & _).
  destruct Hopen as [Hok _]; [discriminate | vm_compute; reflexivity | ].
  apply Hok; [reflexivity | vm_compute; reflexivity].
Defined.

(** X26: progress that was saved is what is loaded: after an accepted
    [saveProgress] of a list of ids, [loadProgress] for the same route
    with the ids of the pieces returns the saved ids that are valid
    UUIDs and name a piece; when every saved id is such an id, it
    returns the list that was saved. *)
Theorem save_then_load (now : string) (ids pieceIds : list string) (st : State) :
  saveBlocked st = false ->
  let st' := loadProgress None (Route.id (route st)) pieceIds
                          (saveProgress now None ids st) in
  collectedIds st'
  = filter (λ id, id ∈ pieceIds) (filter (λ id, isUuid id) ids)
  /\ ((forall i, i ∈ ids -> isUuid i = true /\ i ∈ pieceIds) ->
      collectedIds st' = ids).
Proof.
  intros Hb. cbn zeta.
  apply saveBlocked_false in Hb as Hg. destruct Hg as (Hdev & Huuid & Hsel).
  destruct (saveProgress_sends now None ids st Hb) as [_ Htab].
  specialize (Htab eq_refl). cbn zeta in Htab.
  assert (Hframe : deviceId (saveProgress now None ids st) = deviceId st).
  { unfold saveProgress. now rewrite Hb. }
  assert (Hload : collectedIds
                    (loadProgress None (Route.id (route st)) pieceIds
                       (saveProgress now None ids st))
                  = filter (λ id, id ∈ pieceIds) (filter (λ id, isUuid id) ids)).
  { unfold loadProgress. rewrite loadProgress_open by (rewrite ?Hframe; assumption).
    cbn [collectedIds setCollectedIds progressTable deviceId emit].
    rewrite Hframe, Htab, lookup_insert_eq. cbn.
    apply list_filter_iff. intros i. now rewrite has_spec, elem_of_newSet. }
  split; [exact Hload | ].
  intros Hall. rewrite Hload.
  rewrite (PiecesTheory.filter_all (λ id, isUuid id) ids)
    by (intros i Hi; apply Is_true_true, Hall, Hi).
  apply PiecesTheory.filter_all. intros i Hi. now apply Hall.
Qed.

Lemma save_then_load_witness :
  let st := onRouteX [uuidPiece] in
  collectedIds
    (loadProgress None (Route.id (route st)) [Piece.id uuidPiece]
       (saveProgress "2024-05-01T10:00:00.000Z" None [Piece.id uuidPiece] st))
  = [Piece.id uuidPiece].
Proof.
  cbn zeta.
  apply (save_then_load "2024-05-01T10:00:00.000Z" [Piece.id uuidPiece]
           [Piece.id uuidPiece] (onRouteX [uuidPiece])).
  - vm_compute. reflexivity.
  - intros i Hi. apply list_elem_of_singleton in Hi as ->.
    split; [vm_compute; reflexivity | now left].
Defined.
End LoadTheory.

Module RouteTheory.
Import Geo Tiling App Uuid JsSet JsSetTheory ProgressTheory ResliceTheory LoadTheory.


(** X27: [loadRoute] with an empty route id does nothing.  When the
    read of the route or of its pieces fails, the current route, its
    pieces, CollectedSet, the image, the selection and the stored last
    route stay as they were; the message is put in both error fields
    and the busy flag is cleared. *)
Theorem loadRoute_failure (decode : string -> option (Z * Z))
    (routeReply : Reply RouteRow) (pieceReply : Reply (option (list PieceRow)))
    (progressError : option string) (routeId : string) (st : State) :
  let st' := loadRoute decode routeReply pieceReply progressError routeId st in
  (routeId = "" -> st' = st)
  /\ (routeId ≠ "" ->
      forall message,
        routeReply = Failed message
        \/ (exists routeData, routeReply = Fetched routeData)
           /\ pieceReply = Failed message ->
        route st' = route st /\ pieces st' = pieces st
        /\ collectedIds st' = collectedIds st
        /\ selectedRouteId st' = selectedRouteId st
        /\ puzzleImageUrl st' = puzzleImageUrl st
        /\ lastRouteStored st' = lastRouteStored st
        /\ progressTable st' = progressTable st
        /\ trace st' = trace st
        /\ walkBusy st' = false
        /\ walkError st' = message /\ adminError st' = message).
Proof.
  cbn zeta. unfold loadRoute. split.
  - intros ->. reflexivity.
  - intros Hid message Hfail. rewrite decide_False by exact Hid.
    destruct Hfail as [-> | [[routeData ->] ->]]; repeat split.
Qed.

Lemma loadRoute_failure_witness :
  let st := setCollectedIds [Piece.id uuidPiece] (onRouteX [uuidPiece]) in
  pieces (loadRoute (λ _, None) (Failed "offline") (Failed "offline") None
                    "0a1b2c3d-4e5f-4a6b-8c7d-9e0f1a2b3c4d" st)
  = [uuidPiece].
Proof.
  cbn zeta.
  destruct (loadRoute_failure (λ _, None) (Failed "offline") (Failed "offline")
              None "0a1b2c3d-4e5f-4a6b-8c7d-9e0f1a2b3c4d"
              (setCollectedIds [Piece.id uuidPiece] (onRouteX [uuidPiece])))
    as (_ & Hfail).
  destruct (Hfail ltac:(discriminate) "offline" (or_introl eq_refl))
    as (_ & Hps & _).
  exact Hps.
Defined.


End RouteTheory.

Module AdminTheory.
Import Geo Tiling App.



(** X30: the device id is stable: when [localStorage] holds a non-empty
    id the effect adopts it and stores nothing new; otherwise it adopts
    and stores the fresh id.  So, once a non-empty id was generated,
    every later start of the app gets that same id, whatever fresh id
    is drawn then. *)
Theorem deviceId_is_stable (existing : option string) (uuid : string)
    (st : State) :
  (forall s, existing = Some s -> s ≠ "" ->
     deviceIdEffect existing uuid st = (Some s, setDeviceId s st))
  /\ (existing = None \/ existing = Some "" ->
      deviceIdEffect existing uuid st = (Some uuid, setDeviceId uuid st))
  /\ (uuid ≠ "" ->
      forall uuid' st',
        let first := deviceIdEffect existing uuid st in
        let again := deviceIdEffect first.1 uuid' st' in
        deviceId again.2 = deviceId first.2 /\ again.1 = first.1).
Proof.
  assert (Hold : forall s u t, s ≠ "" ->
            deviceIdEffect (Some s) u t = (Some s, setDeviceId s t)).
  { intros s u t Hs. unfold deviceIdEffect, truthy.
    now rewrite bool_decide_eq_true_2. }
  assert (Hnew : forall e u t, e = None \/ e = Some "" ->
            deviceIdEffect e u t = (Some u, setDeviceId u t)).
  { intros e u t [-> | ->]; reflexivity. }
  split; [intros s -> Hs; now apply Hold | ].
  split; [apply Hnew | ].
  intros Huuid uuid' st'. cbn zeta.
  destruct existing as [s | ]; [destruct (decide (s = "")) as [-> | Hs] | ].
  - rewrite (Hnew (Some "")) by now right. cbn [fst snd].
    rewrite Hold by exact Huuid. now split.
  - rewrite (Hold s) by exact Hs. cbn [fst snd].
    rewrite Hold by exact Hs. now split.
  - rewrite (Hnew None) by now left. cbn [fst snd].
    rewrite Hold by exact Huuid. now split.
Qed.

Lemma deviceId_is_stable_witness :
  let first := deviceIdEffect None "3f2b1c4d-5e6f-4a7b-8c9d-0e1f2a3b4c5d"
                              initialState in
  deviceId (deviceIdEffect first.1 "0a1b2c3d-4e5f-4a6b-8c7d-9e0f1a2b3c4d"
                           initialState).2
  = "3f2b1c4d-5e6f-4a7b-8c9d-0e1f2a3b4c5d".
Proof.
  cbn zeta.
  destruct (deviceId_is_stable None "3f2b1c4d-5e6f-4a7b-8c9d-0e1f2a3b4c5d"
              initialState) as (_ & _ & Hstable).
  destruct (Hstable ltac:(discriminate) "0a1b2c3d-4e5f-4a6b-8c7d-9e0f1a2b3c4d"
                    initialState) as [Hid _].
  exact Hid.
Defined.
End AdminTheory.

Module WalkExamples.
Import Geo App WalkTheory SliceCache.

Lemma sample_collects_within_radius_witness :
  let p := Piece.mk "p1" 10 20 1 None in
  let st := setSelectedRouteId "9b2e4c1a-7d3f-4e5a-9c6b-1a2b3c4d5e6f"
              (setPieces [p] initialState) in
  "p1" ∈ collectedIds (deliver (Sample (mkCoordinate 10 20)) (startWalk true st)).
Proof.
  cbn zeta.
  destruct (sample_collects_within_radius
              (mkWatchClosure [] 0) (mkCoordinate 10 20)
              (setSelectedRouteId "9b2e4c1a-7d3f-4e5a-9c6b-1a2b3c4d5e6f"
                 (setPieces [Piece.mk "p1" 10 20 1 None] initialState)))
    as (_ & _ & _ & Hstart).
  destruct Hstart as [_ Hiff]; [discriminate | reflexivity | ].
  apply Hiff. right. exists (Piece.mk "p1" 10 20 1 None).
  split; [now left | ]. split; [reflexivity | ].
  rewrite GeoBounds.haversine_same_place by reflexivity.
  cbn. lra.
Defined.

Lemma sliceKey_separates_witness :
  sliceKey "data:AAAA" 1 (Tiling.mkGrid 1 1)
  = sliceKey "data:BBBB" 1 (Tiling.mkGrid 1 1).
Proof.
  apply sliceKey_separates. repeat split.
Defined.
End WalkExamples.
